(** * Toguz Kumalak UI skeleton (src/main.py): board model, move history,
      hit testing and the event handlers of [GameUI].

    The development has two layers.

    - An object layer ([Module Store]) in which a board is a heap object
      holding a reference to a mutable list object, as in Python.  It is
      used to show that [ToguzBoard.apply_move] works on a fresh deep copy
      and never touches objects that existed before the call.
    - A value layer in which a board is a record.  The history and the
      event handlers are modelled on values; this is exact because every
      board that is stored or handed out by the program is a fresh deep
      copy ([copy.deepcopy] in [apply_move], [copy] in [MoveHistory.add]
      and [MoveHistory.rewind_to]).

    Python [int] is [Z].  Python [float] arithmetic of the geometry code is
    idealised as exact rational arithmetic ([Q]). *)

From Stdlib Require Import ZArith QArith Qminmax Lia Lqa String DecimalString.
From Stdlib Require DecimalPos DecimalZ.
From stdpp Require Import base option list gmap.

Local Open Scope Z_scope.

(** ** Python primitives *)

(** Exceptions raised by the modelled code.  [AttributeError] only arises
    in the object layer, when a reference does not lead to an object of the
    expected class. *)
Inductive exn : Type :=
  | IndexError
  | AttributeError.

Inductive result (A : Type) : Type :=
  | Ok (a : A)
  | Raise (e : exn).
Arguments Ok {A} a.
Arguments Raise {A} e.

#[global] Instance result_ret : MRet result := fun A a => Ok a.
#[global] Instance result_bind : MBind result := fun A B f m =>
  match m with
  | Ok a => f a
  | Raise e => Raise e
  end.

(** Computations over a mutable state [S] that may raise: the state at the
    moment of the raise is kept, as it is in Python. *)
Definition St (S A : Type) : Type := S -> result A * S.

#[global] Instance St_ret {S} : MRet (St S) := fun A a s => (Ok a, s).
#[global] Instance St_bind {S} : MBind (St S) := fun A B f m s =>
  match m s with
  | (Ok a, s') => f a s'
  | (Raise e, s') => (Raise e, s')
  end.

Definition get {S} : St S S := fun s => (Ok s, s).
Definition lift {S A} (r : result A) : St S A := fun s => (r, s).

(** [l[i]] position: Python accepts [-len <= i < len] and counts negative
    indices from the end. *)
Definition norm_index (len : nat) (i : Z) : option nat :=
  if (0 <=? i) && (i <? Z.of_nat len) then Some (Z.to_nat i)
  else if (- Z.of_nat len <=? i) && (i <? 0) then Some (Z.to_nat (Z.of_nat len + i))
  else None.

(** [l[i]] *)
Definition getitem {A} (l : list A) (i : Z) : result A :=
  match norm_index (length l) i with
  | Some n =>
      match l !! n with
      | Some x => Ok x
      | None => Raise IndexError
      end
  | None => Raise IndexError
  end.

(** [l[i] = v] *)
Definition setitem {A} (l : list A) (i : Z) (v : A) : result (list A) :=
  match norm_index (length l) i with
  | Some n => Ok (<[n := v]> l)
  | None => Raise IndexError
  end.

(** [l[:k]] *)
Definition slice_to {A} (l : list A) (k : Z) : list A :=
  if 0 <=? k then take (Z.to_nat k) l
  else take (Z.to_nat (Z.of_nat (length l) + k)) l.

(** [range(lo, hi)] *)
Definition range (lo hi : Z) : list Z :=
  map (fun k => lo + Z.of_nat k) (seq 0 (Z.to_nat (hi - lo))).

(** [sum(l)] *)
Definition sum (l : list Z) : Z := foldr Z.add 0 l.

(** ** ToguzBoard (value layer) *)

Record ToguzBoard : Type := mkBoard {
  pits : list Z;
  kazans : Z * Z;
  turn : Z
}.

(** [ToguzBoard()]: the dataclass defaults. *)
Definition ToguzBoard_default : ToguzBoard :=
  {| pits := replicate 18 9; kazans := (0, 0); turn := 0 |}.

(** [[i for i in idxs if pits[i] > 0]]; the comprehension raises at the
    first index that is out of range. *)
Fixpoint nonempty_pits (ps : list Z) (idxs : list Z) : result (list Z) :=
  match idxs with
  | [] => Ok []
  | i :: rest =>
      c ← getitem ps i;
      r ← nonempty_pits ps rest;
      Ok (if 0 <? c then i :: r else r)
  end.

Definition generate_legal_moves (self : ToguzBoard) : result (list Z) :=
  if turn self =? 0 then nonempty_pits (pits self) (range 0 9)
  else nonempty_pits (pits self) (range 9 18).

Definition apply_move (self : ToguzBoard) (pit_index : Z) : result ToguzBoard :=
  let new_board := self in
  let new_board :=
    {| pits := pits new_board; kazans := kazans new_board;
       turn := Z.lxor (turn new_board) 1 |} in
  ps ← setitem (pits new_board) pit_index 0;
  Ok {| pits := ps; kazans := kazans new_board; turn := turn new_board |}.

(** [copy] returns a deep copy: on values, the same board (see
    [Store.copy] for the object it creates). *)
Definition copy (self : ToguzBoard) : ToguzBoard := self.

(** [sum(pits) + kazans[0] + kazans[1]] *)
Definition total (b : ToguzBoard) : Z :=
  sum (pits b) + fst (kazans b) + snd (kazans b).

(** States produced from the initial board by successive [apply_move]
    calls that return. *)
Inductive reachable : ToguzBoard -> Prop :=
  | reach_init : reachable ToguzBoard_default
  | reach_move s i s' :
      reachable s -> apply_move s i = Ok s' -> reachable s'.

(** ** ToguzBoard (object layer) *)

Module Store.

Definition loc : Type := positive.

(** A heap object is either a Python list of ints or a [ToguzBoard]
    instance; the instance holds a reference to its [pits] list, while
    the [kazans] tuple and the [turn] int are immutable values. *)
Inductive obj : Type :=
  | ListObj (items : list Z)
  | BoardObj (pits_ref : loc) (kazans_val : Z * Z) (turn_val : Z).

Abbreviation heap := (gmap loc obj).

(** Object creation: a location that is not in use. *)
Definition alloc (o : obj) : St heap loc := fun h =>
  let l := fresh (dom h) in (Ok l, <[l := o]> h).

Definition load_list (l : loc) : St heap (list Z) := fun h =>
  match h !! l with
  | Some (ListObj xs) => (Ok xs, h)
  | _ => (Raise AttributeError, h)
  end.

Definition load_board (l : loc) : St heap (loc * (Z * Z) * Z) := fun h =>
  match h !! l with
  | Some (BoardObj p k t) => (Ok (p, k, t), h)
  | _ => (Raise AttributeError, h)
  end.

Definition store (l : loc) (o : obj) : St heap unit := fun h =>
  (Ok tt, <[l := o]> h).

(** [copy.deepcopy(board)]: a new list object with the same items and a
    new board object that refers to it. *)
Definition deepcopy (b : loc) : St heap loc :=
  '(p, k, t) ← load_board b;
  xs ← load_list p;
  p' ← alloc (ListObj xs);
  alloc (BoardObj p' k t).

(** [ToguzBoard.copy] *)
Definition copy (self : loc) : St heap loc := deepcopy self.

(** [board.turn ^= 1] *)
Definition xor_turn (b : loc) : St heap unit :=
  '(p, k, t) ← load_board b;
  store b (BoardObj p k (Z.lxor t 1)).

(** [board.pits[i] = v] *)
Definition set_pit (b : loc) (i : Z) (v : Z) : St heap unit :=
  '(p, k, t) ← load_board b;
  xs ← load_list p;
  xs' ← lift (setitem xs i v);
  store p (ListObj xs').

Definition apply_move (self : loc) (pit_index : Z) : St heap loc :=
  new_board ← deepcopy self;
  _ ← xor_turn new_board;
  _ ← set_pit new_board pit_index 0;
  mret new_board.

(** The board value that a reference denotes in a heap. *)
Definition read (h : heap) (b : loc) : option ToguzBoard :=
  match h !! b with
  | Some (BoardObj p k t) =>
      match h !! p with
      | Some (ListObj xs) => Some {| pits := xs; kazans := k; turn := t |}
      | _ => None
      end
  | _ => None
  end.

End Store.

(** ** MoveRecord and MoveHistory *)

Record MoveRecord : Type := mkRecord {
  ply : Z;
  notation : string;
  board_snapshot : ToguzBoard
}.

Record MoveHistory : Type := mkHistory {
  _records : list MoveRecord
}.

(** [MoveHistory()] *)
Definition MoveHistory_new : MoveHistory := {| _records := [] |}.

Definition add (self : MoveHistory) (note : string) (snapshot : ToguzBoard)
  : MoveHistory :=
  {| _records :=
       _records self ++
       [ {| ply := Z.of_nat (length (_records self)) + 1;
            notation := note;
            board_snapshot := copy snapshot |} ] |}.

Definition rewind_to (self : MoveHistory) (ply : Z) : result ToguzBoard :=
  if ply =? 0 then Ok ToguzBoard_default
  else
    r ← getitem (_records self) (ply - 1);
    Ok (copy (board_snapshot r)).

Definition as_table (self : MoveHistory) : list (Z * string) :=
  map (fun rec => (ply rec, notation rec)) (_records self).

(** The trimming done by the table handler of [GameUI.run]:
    [history._records = history._records[:row_idx]]. *)
Definition truncate (self : MoveHistory) (row_idx : Z) : MoveHistory :=
  {| _records := slice_to (_records self) row_idx |}.

(** Histories produced from the empty one by [add] and by trimming. *)
Inductive produced : MoveHistory -> Prop :=
  | produced_new : produced MoveHistory_new
  | produced_add h note b : produced h -> produced (add h note b)
  | produced_truncate h k : produced h -> produced (truncate h k).

(** Entry [i] carries ply [i + 1]. *)
Definition ply_dense (h : MoveHistory) : Prop :=
  forall i r, _records h !! i = Some r -> ply r = Z.of_nat i + 1.

(** ** Board geometry *)

Local Open Scope Q_scope.

(** [min(w / 18, h / 4) * 0.9] *)
Definition pit_r (w h : Q) : Q := Qmin (w / 18) (h / 4) * 0.9.

(** Centres used by [_draw_board] and again by [_screen_to_pit]. *)
Definition bottom_center (w h : Q) (i : Z) : Q * Q :=
  ((inject_Z i + 0.5) * 2 * pit_r w h, pit_r w h * 1.5).

Definition top_center (w h : Q) (i : Z) : Q * Q :=
  ((inject_Z (8 - i) + 0.5) * 2 * pit_r w h, h - pit_r w h * 1.5).

(** Centre at which pit [idx] is drawn: [idx] for the bottom row,
    [9 + i] for the top row. *)
Definition pit_center (w h : Q) (idx : Z) : Q * Q :=
  if (idx <? 9)%Z then bottom_center w h idx else top_center w h (idx - 9).

(** [(x - cx) ** 2 + (y - cy) ** 2 <= pit_r ** 2] *)
Definition inside (w h : Q) (c : Q * Q) (x y : Q) : bool :=
  Qle_bool ((x - fst c) ^ 2 + (y - snd c) ^ 2) (pit_r w h ^ 2).

Definition hit_bottom (w h x y : Q) (i : Z) : bool :=
  inside w h (bottom_center w h i) x y.

Definition hit_top (w h x y : Q) (i : Z) : bool :=
  inside w h (top_center w h i) x y.

(** The hit condition of pit [idx], as tested by [_screen_to_pit]. *)
Definition cell_hit (w h x y : Q) (idx : Z) : bool :=
  if (idx <? 9)%Z then hit_bottom w h x y idx else hit_top w h x y (idx - 9).

(** A [for] loop over [idxs] that returns at the first index passing
    [test]. *)
Fixpoint first_hit (test : Z -> bool) (idxs : list Z) : option Z :=
  match idxs with
  | [] => None
  | i :: rest => if test i then Some i else first_hit test rest
  end.

(** [GameUI._screen_to_pit] for a board area of size [(w, h)]. *)
Definition screen_to_pit (w h x y : Q) : option Z :=
  match first_hit (hit_bottom w h x y) (range 0 9) with
  | Some i => Some i
  | None =>
      match first_hit (hit_top w h x y) (range 0 9) with
      | Some i => Some (9 + i)%Z
      | None => None
      end
  end.

Local Close Scope Q_scope.

(** ** GameUI *)

(** The model state of the UI object; [board_size] is what
    [board_area.get_size()] reports. *)
Record GameUI : Type := mkUI {
  board_model : ToguzBoard;
  history : MoveHistory;
  board_size : Q * Q
}.

Definition GameUI_new (size : Q * Q) : GameUI :=
  {| board_model := ToguzBoard_default; history := MoveHistory_new;
     board_size := size |}.

Definition set_board_model (b : ToguzBoard) : St GameUI unit := fun ui =>
  (Ok tt, {| board_model := b; history := history ui;
             board_size := board_size ui |}).

Definition set_history (h : MoveHistory) : St GameUI unit := fun ui =>
  (Ok tt, {| board_model := board_model ui; history := h;
             board_size := board_size ui |}).

(** [_draw_board] changes no model state; it reads [pits[0..17]], which
    raises when the list is shorter. *)
Fixpoint read_pits (ps : list Z) (idxs : list Z) : result unit :=
  match idxs with
  | [] => Ok tt
  | i :: rest => _ ← getitem ps i; read_pits ps rest
  end.

Definition _draw_board : St GameUI unit :=
  ui ← get;
  _ ← lift (read_pits (pits (board_model ui)) (range 0 9));
  lift (read_pits (pits (board_model ui)) (range 9 18)).

Definition _screen_to_pit (self : GameUI) (x y : Q) : option Z :=
  screen_to_pit (fst (board_size self)) (snd (board_size self)) x y.

Definition _push_history (move_notation : string) : St GameUI unit :=
  ui ← get;
  set_history (add (history ui) move_notation (board_model ui)).

(** [f"{'AI' if by_engine else 'P'}:{pit_index + 1}"] *)
Definition move_str (pit_index : Z) (by_engine : bool) : string :=
  String.append (if by_engine then "AI" else "P")%string
    (String.append ":"%string (NilZero.string_of_int (Z.to_int (pit_index + 1)))).

(** [_apply_move] and [_engine_move] call each other, but the engine
    always passes [by_engine=True], which ends the chain: the reply is
    taken as a parameter and tied below. *)
Definition _apply_move_with (reply : St GameUI unit)
    (pit_index : Z) (by_engine : bool) : St GameUI unit :=
  ui ← get;
  b ← lift (apply_move (board_model ui) pit_index);
  _ ← set_board_model b;
  _ ← _push_history (move_str pit_index by_engine);
  _ ← _draw_board;
  if negb by_engine then reply else mret tt.

Definition _engine_move : St GameUI unit :=
  ui ← get;
  legal ← lift (generate_legal_moves (board_model ui));
  match legal with
  | [] => mret tt
  | chosen :: _ => _apply_move_with (mret tt) chosen true
  end.

Definition _apply_move (pit_index : Z) (by_engine : bool) : St GameUI unit :=
  _apply_move_with _engine_move pit_index by_engine.

(** Events delivered by [window.read]. *)
Inductive event : Type :=
  | BoardClick (x y : Q)
  | TableSelect (rows : list Z)
  | TimeoutEvent
  | Closed.

(** The ["-BOARD-"] branch of [run]. *)
Definition on_board_click (x y : Q) : St GameUI unit :=
  ui ← get;
  match _screen_to_pit ui x y with
  | None => mret tt
  | Some pit =>
      legal ← lift (generate_legal_moves (board_model ui));
      if bool_decide (pit ∈ legal) then _apply_move pit false else mret tt
  end.

(** The ["-TABLE-"] branch of [run]. *)
Definition on_table_select (rows : list Z) : St GameUI unit :=
  match rows with
  | [] => mret tt
  | row_idx :: _ =>
      ui ← get;
      b ← lift (rewind_to (history ui) row_idx);
      _ ← set_board_model b;
      _ ← set_history (truncate (history ui) row_idx);
      _draw_board
  end.

(** [run] over the events read until the window closes. *)
Fixpoint run (events : list event) : St GameUI unit :=
  match events with
  | [] => mret tt
  | Closed :: _ => mret tt
  | BoardClick x y :: rest => _ ← on_board_click x y; run rest
  | TableSelect rows :: rest => _ ← on_table_select rows; run rest
  | TimeoutEvent :: rest => run rest
  end.

(** ** Example inputs *)

(** The board after [apply_move(0)] on a fresh game. *)
Definition board_after_pit0 : ToguzBoard :=
  {| pits := 0 :: replicate 17 9; kazans := (0, 0); turn := 1 |}.

(** The board after [apply_move(9)] on a fresh game. *)
Definition board_after_pit9 : ToguzBoard :=
  {| pits := replicate 9 9 ++ 0 :: replicate 8 9; kazans := (0, 0); turn := 1 |}.

(** A ledger with [n] entries, all holding the initial board. *)
Fixpoint history_of_len (n : nat) : MoveHistory :=
  match n with
  | O => MoveHistory_new
  | S k => add (history_of_len k) "P:1" ToguzBoard_default
  end.

(** A two-entry ledger with distinguishable snapshots. *)
Definition history_two : MoveHistory :=
  add (add MoveHistory_new "P:1" board_after_pit0) "AI:10" board_after_pit9.

(** A heap holding one fresh board at location 1 with its list at 2. *)
Definition heap_one : gmap Store.loc Store.obj :=
  <[1%positive := Store.BoardObj 2%positive (0, 0) 0]>
    (<[2%positive := Store.ListObj (replicate 18 9)]> ∅).

(** The same board at other locations, next to an unrelated object. *)
Definition heap_other : gmap Store.loc Store.obj :=
  <[5%positive := Store.BoardObj 3%positive (0, 0) 0]>
    (<[3%positive := Store.ListObj (replicate 18 9)]>
       (<[1%positive := Store.ListObj [1; 2; 3]]> ∅)).

(** Whether pit [i] of [b] holds a nonzero count. *)
Definition nonzero_count (b : ToguzBoard) (i : Z) : bool :=
  match getitem (pits b) i with
  | Ok c => negb (c =? 0)
  | Raise _ => false
  end.

(** The index range of the side to move: [range(9)] when [turn == 0],
    [range(9, 18)] for any other value of [turn]. *)
Definition side_range (b : ToguzBoard) : Z * Z :=
  if turn b =? 0 then (0, 9) else (9, 18).

(** The number of pits the comprehension of [generate_legal_moves]
    reads up to. *)
Definition pits_needed (b : ToguzBoard) : nat :=
  if turn b =? 0 then 9%nat else 18%nat.

(** What holds of the UI state throughout a session: the current board
    and every snapshot in the ledger come from the initial board by
    [apply_move], and the ledger was built by [add] and trimming. *)
Definition ui_inv (ui : GameUI) : Prop :=
  reachable (board_model ui) /\
  Forall (fun r => reachable (board_snapshot r)) (_records (history ui)) /\
  produced (history ui).

(** A point in the interior of the disk around [c]. *)
Definition strictly_inside (w h : Q) (c : Q * Q) (x y : Q) : Prop :=
  ((x - fst c) ^ 2 + (y - snd c) ^ 2 < pit_r w h ^ 2)%Q.

(** A board with too few pits for [range(9)]. *)
Definition board_short : ToguzBoard :=
  {| pits := [9; 9; 9]; kazans := (0, 0); turn := 0 |}.

(** The UI state after a click on pit 0 and the engine's reply. *)
Definition ui_after_click : GameUI :=
  snd (on_board_click 18 27 (GameUI_new (360, 80)%Q)).

(** The UI state with a new board and ledger; the board area keeps its
    size. *)
Definition ui_with (ui : GameUI) (b : ToguzBoard) (h : MoveHistory) : GameUI :=
  {| board_model := b; history := h; board_size := board_size ui |}.

(** The UI state once [_apply_move] has installed board [b] for a move on
    [pit_index] and pushed it on the ledger. *)
Definition record_move (ui : GameUI) (pit_index : Z) (by_engine : bool)
    (b : ToguzBoard) : GameUI :=
  ui_with ui b (add (history ui) (move_str pit_index by_engine) b).

(** * Properties *)

(** ** Python list primitives *)

Lemma norm_index_Some len i n :
  norm_index len i = Some n ->
  (n < len)%nat /\
  ((0 <= i < Z.of_nat len /\ n = Z.to_nat i) \/
   (- Z.of_nat len <= i < 0 /\ n = Z.to_nat (Z.of_nat len + i))).
Proof.
  unfold norm_index. intros H.
  destruct (Z.leb_spec 0 i), (Z.ltb_spec i (Z.of_nat len)),
    (Z.leb_spec (- Z.of_nat len) i), (Z.ltb_spec i 0);
    simpl in H; inversion H; subst; lia.
Qed.

Lemma norm_index_nonneg len i :
  0 <= i < Z.of_nat len -> norm_index len i = Some (Z.to_nat i).
Proof.
  intros [H0 H1]. unfold norm_index.
  apply Z.leb_le in H0. apply Z.ltb_lt in H1. now rewrite H0, H1.
Qed.

Lemma norm_index_neg len i :
  - Z.of_nat len <= i < 0 ->
  norm_index len i = Some (Z.to_nat (Z.of_nat len + i)).
Proof.
  intros [H0 H1]. unfold norm_index.
  assert (E : (0 <=? i) = false) by (apply Z.leb_gt; lia).
  apply Z.leb_le in H0. apply Z.ltb_lt in H1.
  now rewrite E, H0, H1.
Qed.

Lemma norm_index_None len i :
  i < - Z.of_nat len \/ Z.of_nat len <= i -> norm_index len i = None.
Proof.
  intros H. unfold norm_index.
  destruct (Z.leb_spec 0 i), (Z.ltb_spec i (Z.of_nat len)),
    (Z.leb_spec (- Z.of_nat len) i), (Z.ltb_spec i 0);
    simpl; try reflexivity; lia.
Qed.

Lemma getitem_Ok {A} (l : list A) i x :
  getitem l i = Ok x <->
  exists n, norm_index (length l) i = Some n /\ l !! n = Some x.
Proof.
  unfold getitem. split.
  - destruct (norm_index (length l) i) as [n|]; [|discriminate].
    destruct (l !! n) eqn:E; [|discriminate].
    intros [= ->]. eauto.
  - intros (n & -> & ->). reflexivity.
Qed.

Lemma getitem_in_range {A} (l : list A) i n :
  norm_index (length l) i = Some n -> exists x, getitem l i = Ok x /\ l !! n = Some x.
Proof.
  intros H. destruct (norm_index_Some _ _ _ H) as [Hlt _].
  destruct (lookup_lt_is_Some_2 l n Hlt) as [x Hx].
  exists x. split; [|exact Hx]. apply getitem_Ok. eauto.
Qed.

Lemma getitem_out_of_range {A} (l : list A) i :
  norm_index (length l) i = None -> getitem l i = Raise IndexError.
Proof. unfold getitem. now intros ->. Qed.

Lemma sum_insert (l : list Z) n c v :
  l !! n = Some c -> sum (<[n := v]> l) = sum l - c + v.
Proof.
  revert n. induction l as [|a l IH]; intros [|n] H; simpl in *; try discriminate.
  - injection H as ->. unfold sum; simpl. lia.
  - specialize (IH n H). unfold sum in *; simpl. lia.
Qed.

Lemma Forall_nonneg_insert (l : list Z) n :
  Forall (fun c => 0 <= c) l -> Forall (fun c => 0 <= c) (<[n := 0]> l).
Proof.
  intros H. revert n. induction H as [|a l Ha Hl IH]; intros [|n]; simpl;
    try constructor; auto; lia.
Qed.

Lemma slice_to_take {A} (l : list A) k :
  exists n, slice_to l k = take n l.
Proof. unfold slice_to. destruct (0 <=? k); eauto. Qed.

(** ** ToguzBoard.apply_move on values *)

Lemma apply_move_Ok s i s' :
  apply_move s i = Ok s' <->
  exists n, norm_index (length (pits s)) i = Some n /\
    s' = {| pits := <[n := 0]> (pits s); kazans := kazans s;
            turn := Z.lxor (turn s) 1 |}.
Proof.
  unfold apply_move, setitem; simpl.
  destruct (norm_index (length (pits s)) i) as [n|]; simpl; split.
  - intros [= <-]. eauto.
  - intros (m & [= <-] & ->). reflexivity.
  - discriminate.
  - intros (m & [=] & _).
Qed.

Lemma apply_move_Raise s i e :
  apply_move s i = Raise e <->
  norm_index (length (pits s)) i = None /\ e = IndexError.
Proof.
  unfold apply_move, setitem; simpl.
  destruct (norm_index (length (pits s)) i) as [n|]; simpl; split.
  - discriminate.
  - intros [[=] _].
  - intros [= <-]. auto.
  - intros [_ ->]. reflexivity.
Qed.

Lemma apply_move_removes s i s' :
  apply_move s i = Ok s' ->
  exists c, getitem (pits s) i = Ok c /\ total s' = total s - c.
Proof.
  intros H. apply apply_move_Ok in H as (n & Hn & ->).
  destruct (getitem_in_range _ _ _ Hn) as (c & Hc & Hl).
  exists c. split; [exact Hc|].
  unfold total; simpl. rewrite (sum_insert _ _ _ _ Hl). lia.
Qed.

Lemma reachable_inv s :
  reachable s ->
  Forall (fun c => 0 <= c) (pits s) /\ length (pits s) = 18%nat /\
  kazans s = (0, 0) /\ total s <= total ToguzBoard_default.
Proof.
  induction 1 as [|s i s' _ (Hnn & Hlen & Hk & Htot) Hmove].
  - split; [|split; [|split]]; try reflexivity.
    simpl. repeat constructor; lia.
  - destruct (apply_move_removes _ _ _ Hmove) as (c & Hc & Ht).
    apply apply_move_Ok in Hmove as (n & Hn & ->). simpl.
    split; [|split; [|split]].
    + now apply Forall_nonneg_insert.
    + now rewrite length_insert.
    + exact Hk.
    + apply getitem_Ok in Hc as (m & Hm & Hl).
      assert (0 <= c).
      { rewrite Forall_forall in Hnn. apply Hnn.
        eapply list_elem_of_lookup_2; eauto. }
      lia.
Qed.

(** ** ToguzBoard.apply_move on objects *)

Lemma fresh_unused (h : gmap Store.loc Store.obj) : h !! fresh (dom h) = None.
Proof. apply not_elem_of_dom, is_fresh. Qed.

Lemma used_not_fresh (h : gmap Store.loc Store.obj) l :
  is_Some (h !! l) -> l <> fresh (dom h).
Proof. intros [o Ho] ->. rewrite fresh_unused in Ho. discriminate. Qed.

Lemma read_Some h b s :
  Store.read h b = Some s <->
  exists p, h !! b = Some (Store.BoardObj p (kazans s) (turn s)) /\
            h !! p = Some (Store.ListObj (pits s)).
Proof.
  unfold Store.read. split.
  - destruct (h !! b) as [[|p k t]|]; try discriminate.
    destruct (h !! p) as [[xs|]|] eqn:Ep; try discriminate.
    intros [= <-]. simpl. eauto.
  - intros (p & -> & ->). now destruct s.
Qed.

(** A deep copy is a new object denoting the same value; nothing that
    existed before is touched. *)
Lemma deepcopy_refines h b s :
  Store.read h b = Some s ->
  exists nb h', Store.copy b h = (Ok nb, h') /\
    h !! nb = None /\ Store.read h' nb = Some s /\
    (forall l, is_Some (h !! l) -> h' !! l = h !! l).
Proof.
  intros Hs. apply read_Some in Hs as (p & Hb & Hp).
  unfold Store.copy, Store.deepcopy.
  unfold mbind, St_bind, Store.load_board, Store.load_list, Store.alloc.
  rewrite Hb, Hp.
  set (l1 := fresh (dom h)).
  set (h1 := <[l1 := Store.ListObj (pits s)]> h).
  set (l2 := fresh (dom h1)).
  assert (F1 : h !! l1 = None) by apply fresh_unused.
  assert (F2 : h1 !! l2 = None) by apply fresh_unused.
  assert (N12 : l1 <> l2).
  { apply used_not_fresh. unfold h1. rewrite lookup_insert_eq. eauto. }
  assert (F2' : h !! l2 = None).
  { unfold h1 in F2. rewrite lookup_insert_ne in F2 by exact N12. exact F2. }
  eexists _, _. split; [reflexivity|]. split; [exact F2'|]. split.
  - apply read_Some. exists l1. rewrite lookup_insert_eq.
    rewrite lookup_insert_ne by auto. unfold h1. rewrite lookup_insert_eq. auto.
  - intros l [o Ho]. unfold h1.
    rewrite !lookup_insert_ne; [reflexivity| |]; intros ->; congruence.
Qed.

(** The object-level [apply_move] computes the value-level one on a new
    object and leaves every existing object as it was. *)
Lemma apply_move_refines h self s i :
  Store.read h self = Some s ->
  exists r h', Store.apply_move self i h = (r, h') /\
    (forall l, is_Some (h !! l) -> h' !! l = h !! l) /\
    match apply_move s i with
    | Ok s' => exists nb, r = Ok nb /\ h !! nb = None /\ Store.read h' nb = Some s'
    | Raise e => r = Raise e
    end.
Proof.
  intros Hs. apply read_Some in Hs as (p & Hb & Hp).
  set (l1 := fresh (dom h)).
  set (h1 := <[l1 := Store.ListObj (pits s)]> h).
  set (l2 := fresh (dom h1)).
  set (h2 := <[l2 := Store.BoardObj l1 (kazans s) (turn s)]> h1).
  set (h3 := <[l2 := Store.BoardObj l1 (kazans s) (Z.lxor (turn s) 1)]> h2).
  assert (F1 : h !! l1 = None) by apply fresh_unused.
  assert (F2 : h1 !! l2 = None) by apply fresh_unused.
  assert (N12 : l1 <> l2).
  { apply used_not_fresh. unfold h1. rewrite lookup_insert_eq. eauto. }
  assert (F2' : h !! l2 = None).
  { unfold h1 in F2. rewrite lookup_insert_ne in F2 by exact N12. exact F2. }
  assert (E3b : h3 !! l2 = Some (Store.BoardObj l1 (kazans s) (Z.lxor (turn s) 1))).
  { unfold h3. apply lookup_insert_eq. }
  assert (E3l : h3 !! l1 = Some (Store.ListObj (pits s))).
  { unfold h3, h2, h1. rewrite !lookup_insert_ne by auto. apply lookup_insert_eq. }
  assert (Fr3 : forall l, is_Some (h !! l) -> h3 !! l = h !! l).
  { intros l [o Ho]. unfold h3, h2, h1.
    rewrite !lookup_insert_ne; [reflexivity| | |]; intros ->; congruence. }
  assert (Step : Store.apply_move self i h =
     (_ ← Store.set_pit l2 i 0; mret l2) h3).
  { unfold Store.apply_move, Store.deepcopy, Store.xor_turn.
    unfold mbind, St_bind, Store.load_board, Store.load_list, Store.alloc, Store.store.
    rewrite Hb, Hp. fold l1 h1 l2 h2. unfold h2 at 1. rewrite lookup_insert_eq.
    reflexivity. }
  rewrite Step. unfold Store.set_pit, mbind, St_bind, Store.load_board, Store.load_list, lift.
  rewrite E3b, E3l.
  destruct (apply_move s i) as [s'|e] eqn:Hm.
  - apply apply_move_Ok in Hm as (n & Hn & ->).
    unfold setitem. rewrite Hn. unfold Store.store, mret, St_ret.
    eexists _, _. split; [reflexivity|]. split.
    + intros l Hl. rewrite lookup_insert_ne; [now apply Fr3|].
      intros ->. destruct Hl. congruence.
    + exists l2. split; [reflexivity|]. split; [exact F2'|].
      apply read_Some. simpl. exists l1.
      rewrite lookup_insert_ne by auto. rewrite lookup_insert_eq. auto.
  - apply apply_move_Raise in Hm as [Hn ->].
    unfold setitem. rewrite Hn.
    eexists _, _. split; [reflexivity|]. split; [exact Fr3|reflexivity].
Qed.

Lemma read_frame h h' b s :
  (forall l, is_Some (h !! l) -> h' !! l = h !! l) ->
  Store.read h b = Some s -> Store.read h' b = Some s.
Proof.
  intros Hfr Hs. apply read_Some in Hs as (p & Hb & Hp).
  apply read_Some. exists p. rewrite !Hfr by eauto. auto.
Qed.

Lemma lxor_1_neq t : Z.lxor t 1 <> t.
Proof.
  intros H.
  assert (E : Z.lxor t (Z.lxor t 1) = 0) by (rewrite H; apply Z.lxor_nilpotent).
  rewrite <- Z.lxor_assoc, Z.lxor_nilpotent in E. discriminate.
Qed.

(** ** Claims about ToguzBoard *)

(** C1 (as stated, refuted): the board obtained from the initial one by
    the legal move [apply_move(0)] is reachable and holds 153 seeds, not
    the initial 162. *)
Lemma total_not_conserved :
  apply_move ToguzBoard_default 0 = Ok board_after_pit0 /\
  reachable board_after_pit0 /\
  total ToguzBoard_default = 162 /\
  total board_after_pit0 = 153.
Proof.
  assert (H : apply_move ToguzBoard_default 0 = Ok board_after_pit0) by reflexivity.
  split; [exact H|]. split; [|split; reflexivity].
  exact (reach_move _ _ _ reach_init H).
Qed.

(** C1 (amended): in every reachable board the total
    [sum(pits) + kazans[0] + kazans[1]] is at most the initial total, and
    [apply_move(i)] lowers it by exactly the count [c >= 0] of the pit
    played, which is emptied without being sown or credited to a kazan;
    so the total is kept only by a move on an empty pit. *)
Theorem reachable_total_bounded (s : ToguzBoard) :
  reachable s ->
  total s <= total ToguzBoard_default /\
  forall i s', apply_move s i = Ok s' ->
    exists c, getitem (pits s) i = Ok c /\ 0 <= c /\ total s' = total s - c.
Proof.
  intros Hr. destruct (reachable_inv s Hr) as (Hnn & _ & _ & Htot).
  split; [exact Htot|].
  intros i s' Hm. destruct (apply_move_removes _ _ _ Hm) as (c & Hc & Ht).
  exists c. repeat split; auto.
  apply getitem_Ok in Hc as (n & _ & Hl).
  rewrite Forall_forall in Hnn. apply Hnn.
  eapply list_elem_of_lookup_2; eauto.
Qed.

Lemma reachable_total_bounded_witness :
  reachable board_after_pit0 /\
  total board_after_pit0 <= total ToguzBoard_default.
Proof.
  assert (Hr : reachable board_after_pit0).
  { apply (reach_move ToguzBoard_default 0); [apply reach_init | reflexivity]. }
  split; [exact Hr | exact (proj1 (reachable_total_bounded board_after_pit0 Hr))].
Defined.

(** C9: on the initial board (side 0 to move) [generate_legal_moves]
    returns exactly the indices of [0..8] with a nonzero count, and these
    are all nine indices. *)
Theorem legal_moves_initial :
  generate_legal_moves ToguzBoard_default
    = Ok (filter (fun i => nonzero_count ToguzBoard_default i = true) (range 0 9)) /\
  generate_legal_moves ToguzBoard_default = Ok [0; 1; 2; 3; 4; 5; 6; 7; 8].
Proof. split; reflexivity. Qed.

(** C10: for a board with 18 pits and [pit_index] in [0..17],
    [apply_move] returns a new board object whose turn is flipped, whose
    pit [pit_index] is 0 and whose other pits and kazans are those of the
    original; the original board, and every object that existed before
    the call, is unchanged. *)
Theorem apply_move_frame_effect
    (h : gmap Store.loc Store.obj) (self : Store.loc)
    (s : ToguzBoard) (pit_index : Z) :
  Store.read h self = Some s ->
  length (pits s) = 18%nat ->
  0 <= pit_index <= 17 ->
  exists new_board h' s',
    Store.apply_move self pit_index h = (Ok new_board, h') /\
    Store.read h' new_board = Some s' /\
    turn s' = Z.lxor (turn s) 1 /\ turn s' <> turn s /\
    (turn s = 0 -> turn s' = 1) /\ (turn s = 1 -> turn s' = 0) /\
    getitem (pits s') pit_index = Ok 0 /\
    (forall j, 0 <= j <= 17 -> j <> pit_index ->
       getitem (pits s') j = getitem (pits s) j) /\
    length (pits s') = 18%nat /\
    kazans s' = kazans s /\
    new_board <> self /\
    Store.read h' self = Some s /\
    (forall l, is_Some (h !! l) -> h' !! l = h !! l).
Proof.
  intros Hs Hlen Hi.
  destruct (apply_move_refines h self s pit_index Hs) as (r & h' & Hrun & Hfr & Hres).
  assert (Hn : norm_index (length (pits s)) pit_index = Some (Z.to_nat pit_index)).
  { apply norm_index_nonneg. lia. }
  assert (Hm : apply_move s pit_index =
            Ok {| pits := <[Z.to_nat pit_index := 0]> (pits s);
                  kazans := kazans s; turn := Z.lxor (turn s) 1 |}).
  { apply apply_move_Ok. eauto. }
  rewrite Hm in Hres. destruct Hres as (nb & -> & Hnew & Hread).
  eexists nb, h', _. split; [exact Hrun|]. split; [exact Hread|]. simpl.
  repeat split.
  - apply lxor_1_neq.
  - now intros ->.
  - now intros ->.
  - apply getitem_Ok. exists (Z.to_nat pit_index). rewrite length_insert.
    split; [exact Hn|]. apply list_lookup_insert_eq. lia.
  - intros j Hj Hne. unfold getitem. rewrite length_insert.
    rewrite (norm_index_nonneg (length (pits s)) j) by lia.
    rewrite list_lookup_insert_ne by lia. reflexivity.
  - now rewrite length_insert.
  - intros ->. apply read_Some in Hs as (p & Hb & _). congruence.
  - now apply (read_frame h).
  - exact Hfr.
Qed.

Lemma apply_move_frame_effect_witness :
  exists new_board h' s',
    Store.apply_move 1%positive 4 heap_one = (Ok new_board, h') /\
    Store.read h' new_board = Some s' /\
    getitem (pits s') 4 = Ok 0 /\
    Store.read h' 1%positive = Some ToguzBoard_default.
Proof.
  destruct (apply_move_frame_effect heap_one 1%positive ToguzBoard_default 4)
    as (nb & h' & s' & H1 & H2 & _ & _ & _ & _ & H3 & _ & _ & _ & _ & H4 & _).
  - reflexivity.
  - reflexivity.
  - lia.
  - exists nb, h', s'. auto.
Defined.

(** C8: [apply_move] is a function of the board value and the move only:
    run in any two heaps on any two board objects that denote the same
    value, it either raises the same exception in both, or returns in both
    a board denoting the same value, the one given by the value-level
    [apply_move]. *)
Theorem apply_move_pure
    (h1 h2 : gmap Store.loc Store.obj) (r1 r2 : Store.loc)
    (s : ToguzBoard) (m : Z) :
  Store.read h1 r1 = Some s ->
  Store.read h2 r2 = Some s ->
  match Store.apply_move r1 m h1, Store.apply_move r2 m h2 with
  | (Ok n1, h1'), (Ok n2, h2') =>
      exists s', apply_move s m = Ok s' /\
        Store.read h1' n1 = Some s' /\ Store.read h2' n2 = Some s'
  | (Raise e1, _), (Raise e2, _) => e1 = e2 /\ apply_move s m = Raise e1
  | _, _ => False
  end.
Proof.
  intros H1 H2.
  destruct (apply_move_refines h1 r1 s m H1) as (o1 & h1' & -> & _ & R1).
  destruct (apply_move_refines h2 r2 s m H2) as (o2 & h2' & -> & _ & R2).
  destruct (apply_move s m) as [s'|e].
  - destruct R1 as (n1 & -> & _ & Hr1). destruct R2 as (n2 & -> & _ & Hr2).
    exists s'. auto.
  - subst o1 o2. auto.
Qed.

Lemma apply_move_pure_witness :
  match Store.apply_move 1%positive 4 heap_one,
        Store.apply_move 5%positive 4 heap_other with
  | (Ok n1, h1'), (Ok n2, h2') =>
      exists s', apply_move ToguzBoard_default 4 = Ok s' /\
        Store.read h1' n1 = Some s' /\ Store.read h2' n2 = Some s'
  | (Raise e1, _), (Raise e2, _) =>
      e1 = e2 /\ apply_move ToguzBoard_default 4 = Raise e1
  | _, _ => False
  end.
Proof.
  apply (apply_move_pure heap_one heap_other 1%positive 5%positive
           ToguzBoard_default 4); reflexivity.
Defined.

(** C2 (as stated, refuted): pit 9 is not a legal move on the initial
    board, yet [apply_move] raises nothing and returns a board. *)
Lemma apply_move_accepts_illegal :
  generate_legal_moves ToguzBoard_default = Ok [0; 1; 2; 3; 4; 5; 6; 7; 8] /\
  ~ In 9 [0; 1; 2; 3; 4; 5; 6; 7; 8] /\
  apply_move ToguzBoard_default 9 = Ok board_after_pit9.
Proof.
  split; [reflexivity|]. split; [|reflexivity].
  simpl. intros H. repeat (destruct H as [H|H]; [discriminate H|]). exact H.
Qed.

(** C2 (amended): [apply_move] does not check legality; a move that is
    not in [generate_legal_moves] is rejected by the click handler of
    [GameUI.run], which then raises nothing and leaves the board, the
    history and the rest of the UI state as they were. *)
Theorem illegal_click_ignored (ui : GameUI) (x y : Q) (pit : Z) (legal : list Z) :
  _screen_to_pit ui x y = Some pit ->
  generate_legal_moves (board_model ui) = Ok legal ->
  ~ In pit legal ->
  on_board_click x y ui = (Ok tt, ui).
Proof.
  intros Hpit Hlegal Hnot.
  unfold on_board_click, mbind, St_bind, get. rewrite Hpit.
  unfold lift. rewrite Hlegal.
  rewrite bool_decide_eq_false_2; [reflexivity|].
  intros Hin. apply Hnot. now apply list_elem_of_In.
Qed.

Lemma illegal_click_ignored_witness :
  on_board_click 18 53 (GameUI_new (360, 80)%Q) = (Ok tt, GameUI_new (360, 80)%Q).
Proof.
  apply (illegal_click_ignored (GameUI_new (360, 80)%Q) 18 53 17
           [0; 1; 2; 3; 4; 5; 6; 7; 8]).
  - reflexivity.
  - reflexivity.
  - simpl. lia.
Defined.

(** ** Claims about MoveHistory *)

Lemma rewind_to_index (h : MoveHistory) p n r :
  p <> 0 ->
  norm_index (length (_records h)) (p - 1) = Some n ->
  _records h !! n = Some r ->
  rewind_to h p = Ok (board_snapshot r).
Proof.
  intros Hp Hn Hr. unfold rewind_to.
  apply Z.eqb_neq in Hp. rewrite Hp.
  assert (E : getitem (_records h) (p - 1) = Ok r) by (apply getitem_Ok; eauto).
  rewrite E. reflexivity.
Qed.

(** C3: [rewind_to(0)] is the canonical initial board (every pit 9, both
    kazans 0, side 0 to move) whatever the history, and for
    [1 <= ply <= len] [rewind_to(ply)] is the snapshot of entry
    [ply - 1]. *)
Theorem rewind_to_spec (h : MoveHistory) :
  rewind_to h 0 = Ok ToguzBoard_default /\
  ToguzBoard_default = {| pits := replicate 18 9; kazans := (0, 0); turn := 0 |} /\
  forall p, 1 <= p <= Z.of_nat (length (_records h)) ->
    exists r, _records h !! Z.to_nat (p - 1) = Some r /\
              rewind_to h p = Ok (board_snapshot r).
Proof.
  split; [reflexivity|]. split; [reflexivity|].
  intros p Hp.
  destruct (lookup_lt_is_Some_2 (_records h) (Z.to_nat (p - 1))) as [r Hr]; [lia|].
  exists r. split; [exact Hr|].
  apply (rewind_to_index h p (Z.to_nat (p - 1))); [lia| |exact Hr].
  apply norm_index_nonneg. lia.
Qed.

Lemma rewind_to_spec_witness :
  exists r, _records history_two !! Z.to_nat (2 - 1) = Some r /\
            rewind_to history_two 2 = Ok (board_snapshot r).
Proof.
  apply (proj2 (proj2 (rewind_to_spec history_two)) 2).
  simpl. lia.
Defined.

(** C4 (as stated, refuted): on a two-entry history the negative ply
    [-1] does not fail; Python's negative index [-2] selects entry 0. *)
Lemma negative_rewind_returns :
  length (_records history_two) = 2%nat /\
  -1 < 0 /\
  rewind_to history_two (-1) = Ok board_after_pit0.
Proof. split; [reflexivity|]. split; [lia|reflexivity]. Qed.

(** C4 (amended): with [n] entries, [rewind_to(ply)] raises [IndexError]
    when [ply > n], and when [ply] is negative with [ply <= -n]; the table
    handler then leaves the board and the history unchanged.  A negative
    ply with [-n < ply < 0] does not fail: it returns the snapshot of
    entry [n + ply - 1]. *)
Theorem rewind_to_out_of_range (ui : GameUI) (row_idx : Z) (rest : list Z) :
  let n := Z.of_nat (length (_records (history ui))) in
  (n < row_idx \/ (row_idx < 0 /\ row_idx <= - n) ->
     rewind_to (history ui) row_idx = Raise IndexError /\
     on_table_select (row_idx :: rest) ui = (Raise IndexError, ui)) /\
  (- n < row_idx < 0 ->
     exists r, _records (history ui) !! Z.to_nat (n + row_idx - 1) = Some r /\
               rewind_to (history ui) row_idx = Ok (board_snapshot r)).
Proof.
  intros n. split.
  - intros Hout.
    assert (E : rewind_to (history ui) row_idx = Raise IndexError).
    { unfold rewind_to.
      assert (Hz : (row_idx =? 0) = false) by (apply Z.eqb_neq; lia).
      rewrite Hz, getitem_out_of_range; [reflexivity|].
      apply norm_index_None. fold n. lia. }
    split; [exact E|].
    unfold on_table_select, mbind, St_bind, get, lift. rewrite E. reflexivity.
  - intros Hin.
    destruct (lookup_lt_is_Some_2 (_records (history ui))
                (Z.to_nat (n + row_idx - 1))) as [r Hr]; [lia|].
    exists r. split; [exact Hr|].
    apply (rewind_to_index _ row_idx (Z.to_nat (n + row_idx - 1))); [lia| |exact Hr].
    replace (n + row_idx - 1) with (n + (row_idx - 1)) by lia.
    apply norm_index_neg. fold n. lia.
Qed.

Lemma rewind_to_out_of_range_witness :
  rewind_to history_two 3 = Raise IndexError /\
  on_table_select [3]
    {| board_model := board_after_pit9; history := history_two;
       board_size := (700, 400)%Q |}
  = (Raise IndexError,
     {| board_model := board_after_pit9; history := history_two;
        board_size := (700, 400)%Q |}).
Proof.
  apply (proj1 (rewind_to_out_of_range
                  {| board_model := board_after_pit9; history := history_two;
                     board_size := (700, 400)%Q |} 3 [])).
  left. simpl. lia.
Defined.

Lemma add_lookup (h : MoveHistory) note b i r :
  _records (add h note b) !! i = Some r ->
  _records h !! i = Some r \/
  (i = length (_records h) /\
   r = {| ply := Z.of_nat (length (_records h)) + 1; notation := note;
          board_snapshot := b |}).
Proof.
  unfold add, copy; simpl. intros H.
  apply lookup_app_Some in H as [H|[Hge H]]; [now left|right].
  apply list_lookup_singleton_Some in H as [Hi <-].
  split; [lia|reflexivity].
Qed.

Lemma produced_dense h : produced h -> ply_dense h.
Proof.
  induction 1 as [|h note b _ IH|h k _ IH]; intros i r Hr.
  - discriminate.
  - apply add_lookup in Hr as [Hr|[-> ->]]; [now apply IH|reflexivity].
  - unfold truncate in Hr; simpl in Hr.
    destruct (slice_to_take (_records h) k) as [n Hn]. rewrite Hn in Hr.
    apply lookup_take_Some in Hr as [Hr _]. now apply IH.
Qed.

(** C5: in every history built by [add] and by the trimming
    [_records[:k]], entry [i] has ply [i + 1]; and after trimming a
    five-entry history to ply 2 the next entry added gets ply 3. *)
Theorem ply_numbers_dense (h : MoveHistory) :
  produced h ->
  (forall i r, _records h !! i = Some r -> ply r = Z.of_nat i + 1) /\
  (length (_records h) = 5%nat ->
   forall note b,
     length (_records (truncate h 2)) = 2%nat /\
     last (_records (add (truncate h 2) note b))
       = Some {| ply := 3; notation := note; board_snapshot := b |}).
Proof.
  intros Hp. split; [exact (produced_dense h Hp)|].
  intros Hlen note b.
  assert (L : length (_records (truncate h 2)) = 2%nat).
  { unfold truncate, slice_to; simpl. rewrite length_take. lia. }
  split; [exact L|].
  unfold add, copy. cbn [_records]. rewrite last_snoc, L. reflexivity.
Qed.

Lemma ply_numbers_dense_witness :
  length (_records (truncate (history_of_len 5) 2)) = 2%nat /\
  last (_records (add (truncate (history_of_len 5) 2) "P:4" board_after_pit0))
    = Some {| ply := 3; notation := "P:4"; board_snapshot := board_after_pit0 |}.
Proof.
  apply (proj2 (ply_numbers_dense (history_of_len 5)
                  ltac:(repeat apply produced_add; apply produced_new))).
  reflexivity.
Defined.

(** ** Loops with early return *)

Lemma In_range lo hi j : In j (range lo hi) <-> lo <= j < hi.
Proof.
  unfold range. rewrite in_map_iff. split.
  - intros (k & <- & Hk). apply in_seq in Hk. lia.
  - intros Hj. exists (Z.to_nat (j - lo)). split; [lia|].
    apply in_seq. lia.
Qed.

Lemma range_cons lo hi : lo < hi -> range lo hi = lo :: range (lo + 1) hi.
Proof.
  intros H. unfold range.
  replace (Z.to_nat (hi - lo)) with (S (Z.to_nat (hi - (lo + 1)))) by lia.
  cbn [seq map]. f_equal; [lia|].
  rewrite <- seq_shift, map_map. apply map_ext. intros k. lia.
Qed.

Lemma range_nil lo hi : hi <= lo -> range lo hi = [].
Proof.
  intros H. unfold range. now replace (Z.to_nat (hi - lo)) with O by lia.
Qed.

Lemma first_hit_None test idxs :
  first_hit test idxs = None <-> forall j, In j idxs -> test j = false.
Proof.
  induction idxs as [|a l IH]; simpl.
  - split; [intros _ j []|reflexivity].
  - destruct (test a) eqn:Ha.
    + split; [discriminate|]. intros H. rewrite (H a) in Ha by auto. discriminate.
    + rewrite IH. split.
      * intros H j [<-|Hj]; auto.
      * intros H j Hj. apply H. auto.
Qed.

Lemma first_hit_only test idxs i :
  In i idxs -> (forall j, In j idxs -> test j = true <-> j = i) ->
  first_hit test idxs = Some i.
Proof.
  induction idxs as [|a l IH]; simpl; [intros []|].
  intros Hin Hone. destruct (test a) eqn:Ha.
  - f_equal. apply Hone; auto.
  - assert (Hai : a <> i).
    { intros ->. assert (test i = true) by (apply Hone; auto). congruence. }
    apply IH.
    + destruct Hin; [contradiction|assumption].
    + intros j Hj. apply Hone. auto.
Qed.

Lemma first_hit_range test n : forall lo i,
  first_hit test (range lo (lo + Z.of_nat n)) = Some i ->
  lo <= i < lo + Z.of_nat n /\ test i = true /\
  forall j, lo <= j < i -> test j = false.
Proof.
  induction n as [|n IH]; intros lo i.
  - rewrite range_nil by lia. discriminate.
  - rewrite range_cons by lia. simpl first_hit.
    destruct (test lo) eqn:Hlo.
    + intros [= <-]. split; [lia|]. split; [exact Hlo|]. intros j Hj. lia.
    + replace (lo + Z.of_nat (S n)) with (lo + 1 + Z.of_nat n) by lia.
      intros H. destruct (IH _ _ H) as (Hi & Ht & Hbefore).
      split; [lia|]. split; [exact Ht|].
      intros j Hj. destruct (Z.eq_dec j lo) as [->|Hne]; [exact Hlo|].
      apply Hbefore. lia.
Qed.

(** ** Geometry *)

Local Open Scope Q_scope.

Lemma pit_r_pos w h : 0 < w -> 0 < h -> 0 < pit_r w h.
Proof.
  intros Hw Hh. unfold pit_r.
  destruct (Q.min_spec (w / 18) (h / 4)) as [[_ E]|[_ E]]; rewrite E.
  - assert (0 < w / 18) by (apply Qlt_shift_div_l; lra). lra.
  - assert (0 < h / 4) by (apply Qlt_shift_div_l; lra). lra.
Qed.

Lemma pit_r_le_h w h : pit_r w h * 40 <= 9 * h.
Proof.
  unfold pit_r.
  assert (Qmin (w / 18) (h / 4) <= h / 4) by apply Q.le_min_r.
  assert (h / 4 * 4 == h) by field.
  lra.
Qed.

Lemma inject_Z_apart (a b : Z) :
  a <> b -> 1 <= (inject_Z a - inject_Z b) * (inject_Z a - inject_Z b).
Proof.
  intros Hne. unfold Qminus.
  rewrite <- inject_Z_opp, <- inject_Z_plus, <- inject_Z_mult.
  change 1 with (inject_Z 1). rewrite <- Zle_Qle. nia.
Qed.

Lemma inside_true w h c x y :
  inside w h c x y = true <->
  (x - fst c) ^ 2 + (y - snd c) ^ 2 <= pit_r w h ^ 2.
Proof. apply Qle_bool_iff. Qed.

Lemma inside_false w h c x y :
  inside w h c x y = false <->
  pit_r w h ^ 2 < (x - fst c) ^ 2 + (y - snd c) ^ 2.
Proof.
  rewrite <- not_true_iff_false, inside_true. split.
  - apply Qnot_le_lt.
  - apply Qlt_not_le.
Qed.

(** A bottom-row centre lies in the disk of its own pit only. *)
Lemma bottom_center_hit_bottom w h i j :
  0 < pit_r w h ->
  hit_bottom w h (fst (bottom_center w h i)) (snd (bottom_center w h i)) j = true
  <-> j = i.
Proof.
  intros Hr. unfold hit_bottom. rewrite inside_true.
  unfold bottom_center; cbn [fst snd]. split.
  - intros H. destruct (Z.eq_dec j i) as [E|E]; [exact E|exfalso].
    pose proof (inject_Z_apart i j (not_eq_sym E)). nra.
  - intros ->. nra.
Qed.

(** A top-row centre lies in the disk of its own pit only, among the
    top row. *)
Lemma top_center_hit_top w h i j :
  0 < pit_r w h ->
  hit_top w h (fst (top_center w h i)) (snd (top_center w h i)) j = true
  <-> j = i.
Proof.
  intros Hr. unfold hit_top. rewrite inside_true.
  unfold top_center; cbn [fst snd]. split.
  - intros H. destruct (Z.eq_dec j i) as [E|E]; [exact E|exfalso].
    assert (E' : (8 - i <> 8 - j)%Z) by lia.
    pose proof (inject_Z_apart _ _ E'). nra.
  - intros ->. nra.
Qed.

(** A top-row centre lies outside every bottom-row disk: the rows are
    [h - 3r > r] apart. *)
Lemma top_center_hit_bottom w h i j :
  0 < pit_r w h ->
  hit_bottom w h (fst (top_center w h i)) (snd (top_center w h i)) j = false.
Proof.
  intros Hr. unfold hit_bottom. rewrite inside_false.
  unfold top_center, bottom_center; cbn [fst snd].
  pose proof (pit_r_le_h w h) as Hh.
  generalize ((inject_Z (8 - i) + 0.5) * 2 * pit_r w h
              - (inject_Z j + 0.5) * 2 * pit_r w h).
  intros dx. nra.
Qed.

Local Close Scope Q_scope.

(** ** Claims about hit testing *)

Lemma cell_hit_bottom w h x y j :
  j < 9 -> cell_hit w h x y j = hit_bottom w h x y j.
Proof. intros H. unfold cell_hit. apply Z.ltb_lt in H. now rewrite H. Qed.

Lemma cell_hit_top w h x y j :
  9 <= j -> cell_hit w h x y j = hit_top w h x y (j - 9).
Proof. intros H. unfold cell_hit. apply Z.ltb_ge in H. now rewrite H. Qed.

(** C6: for a board area of positive width and height and every pit
    index [i] in [0..17], the hit test at the centre where pit [i] is
    drawn returns [i]. *)
Theorem center_roundtrip (ui : GameUI) (w h : Q) (i : Z) :
  board_size ui = (w, h) ->
  (0 < w)%Q -> (0 < h)%Q -> 0 <= i <= 17 ->
  _screen_to_pit ui (fst (pit_center w h i)) (snd (pit_center w h i)) = Some i.
Proof.
  intros Hsize Hw Hh Hi.
  pose proof (pit_r_pos w h Hw Hh) as Hr.
  unfold _screen_to_pit. rewrite Hsize. cbn [fst snd].
  unfold screen_to_pit, pit_center.
  destruct (Z.ltb_spec i 9) as [Hlt|Hge].
  - rewrite (first_hit_only _ _ i); [reflexivity| |].
    + apply In_range. lia.
    + intros j _. now apply bottom_center_hit_bottom.
  - assert (Hnone : first_hit
              (hit_bottom w h (fst (top_center w h (i - 9)))
                 (snd (top_center w h (i - 9)))) (range 0 9) = None).
    { apply first_hit_None. intros j _. now apply top_center_hit_bottom. }
    rewrite Hnone.
    rewrite (first_hit_only _ _ (i - 9)).
    + f_equal. lia.
    + apply In_range. lia.
    + intros j _. now apply top_center_hit_top.
Qed.

Lemma center_roundtrip_witness :
  _screen_to_pit (GameUI_new (700, 400)%Q)
    (fst (pit_center 700 400 17)) (snd (pit_center 700 400 17)) = Some 17.
Proof.
  apply (center_roundtrip (GameUI_new (700, 400)%Q) 700 400 17);
    [reflexivity | reflexivity | reflexivity | lia].
Defined.

(** C7 (as stated, refuted): in a 360 x 80 board area the radius is 18
    and the point (18, 40) satisfies the hit condition of pit 0 (centre
    (18, 27)) and of pit 17 (centre (18, 53)); the hit test returns 0. *)
Lemma disks_overlap :
  (0 < 360)%Q /\ (0 < 80)%Q /\
  cell_hit 360 80 18 40 0 = true /\
  cell_hit 360 80 18 40 17 = true /\
  screen_to_pit 360 80 18 40 = Some 0.
Proof. repeat split. Qed.

(** C7 (amended): the hit test returns None exactly when no pit of
    [0..17] satisfies the hit condition; otherwise it returns the lowest
    index that satisfies it (bottom row [0..8] is scanned before top row
    [9..17]).  Several pits can satisfy the condition at one point. *)
Theorem screen_to_pit_first_hit (ui : GameUI) (w h x y : Q) :
  board_size ui = (w, h) ->
  (_screen_to_pit ui x y = None <->
   forall idx, 0 <= idx <= 17 -> cell_hit w h x y idx = false) /\
  (forall i, _screen_to_pit ui x y = Some i ->
     0 <= i <= 17 /\ cell_hit w h x y i = true /\
     forall j, 0 <= j < i -> cell_hit w h x y j = false).
Proof.
  intros Hsize. unfold _screen_to_pit. rewrite Hsize. cbn [fst snd].
  unfold screen_to_pit.
  destruct (first_hit (hit_bottom w h x y) (range 0 9)) as [b|] eqn:Hb.
  - change (range 0 9) with (range 0 (0 + Z.of_nat 9)) in Hb.
    apply first_hit_range in Hb as (Hrange & Htrue & Hbefore).
    split.
    + split; [discriminate|]. intros Hall.
      rewrite <- (cell_hit_bottom w h x y b), Hall in Htrue by lia.
      discriminate.
    + intros i [= <-]. split; [lia|]. split.
      * rewrite cell_hit_bottom by lia. exact Htrue.
      * intros j Hj. rewrite cell_hit_bottom by lia. apply Hbefore. lia.
  - pose proof (proj1 (first_hit_None _ _) Hb) as Hbot.
    destruct (first_hit (hit_top w h x y) (range 0 9)) as [t|] eqn:Ht.
    + change (range 0 9) with (range 0 (0 + Z.of_nat 9)) in Ht.
      apply first_hit_range in Ht as (Hrange & Htrue & Hbefore).
      split.
      * split; [discriminate|]. intros Hall.
        specialize (Hall (9 + t) ltac:(lia)).
        rewrite cell_hit_top in Hall by lia.
        replace (9 + t - 9) with t in Hall by lia. congruence.
      * intros i [= <-]. split; [lia|]. split.
        -- rewrite cell_hit_top by lia.
           replace (9 + t - 9) with t by lia. exact Htrue.
        -- intros j Hj. destruct (Z.lt_ge_cases j 9) as [Hj9|Hj9].
           ++ rewrite cell_hit_bottom by lia. apply Hbot, In_range. lia.
           ++ rewrite cell_hit_top by lia. apply Hbefore. lia.
    + pose proof (proj1 (first_hit_None _ _) Ht) as Htop.
      split; [|discriminate].
      split; [|reflexivity]. intros _ idx Hidx.
      destruct (Z.lt_ge_cases idx 9) as [H9|H9].
      * rewrite cell_hit_bottom by lia. apply Hbot, In_range. lia.
      * rewrite cell_hit_top by lia. apply Htop, In_range. lia.
Qed.

Lemma screen_to_pit_first_hit_witness :
  0 <= 0 <= 17 /\ cell_hit 360 80 18 40 0 = true /\
  forall j, 0 <= j < 0 -> cell_hit 360 80 18 40 j = false.
Proof.
  apply (proj2 (screen_to_pit_first_hit (GameUI_new (360, 80)%Q) 360 80 18 40
                  eq_refl) 0).
  reflexivity.
Defined.

(** ** The handlers on a fresh game *)

(** A click on pit 0 of a fresh game is played, and the engine answers
    with its first legal move, pit 9: two entries, plies 1 and 2. *)
Example click_then_engine_reply :
  as_table (history (snd (on_board_click 18 27 (GameUI_new (360, 80)%Q))))
  = [(1, "P:1"%string); (2, "AI:10"%string)].
Proof. vm_compute. reflexivity. Qed.

(** After two clicks (four entries), selecting table row 2 keeps two
    entries; the next click and its reply are recorded as plies 3 and 4. *)
Example rewind_then_click :
  let ui := snd (run [BoardClick 18 27; BoardClick 54 27; TableSelect [2];
                      BoardClick 90 27]
                   (GameUI_new (360, 80)%Q)) in
  as_table (history ui)
  = [(1, "P:1"%string); (2, "AI:10"%string);
     (3, "P:3"%string); (4, "AI:11"%string)].
Proof. vm_compute. reflexivity. Qed.

(** * Further properties of the code *)

(** ** generate_legal_moves and apply_move *)

Lemma getitem_Raise {A} (l : list A) i e :
  getitem l i = Raise e -> e = IndexError.
Proof.
  unfold getitem. destruct (norm_index (length l) i) as [n|]; [|congruence].
  destruct (l !! n); congruence.
Qed.

Lemma norm_index_None_iff len i :
  norm_index len i = None <-> i < - Z.of_nat len \/ Z.of_nat len <= i.
Proof.
  split; [|apply norm_index_None].
  intros H. destruct (Z.lt_ge_cases i (- Z.of_nat len)) as [|H1]; [auto|].
  destruct (Z.lt_ge_cases i (Z.of_nat len)) as [H2|]; [|auto].
  destruct (Z.lt_ge_cases i 0) as [H3|H3].
  - rewrite norm_index_neg in H by lia. discriminate.
  - rewrite norm_index_nonneg in H by lia. discriminate.
Qed.

Lemma nonempty_pits_Ok ps idxs : forall l,
  nonempty_pits ps idxs = Ok l ->
  sublist l idxs /\
  forall m, In m l <-> In m idxs /\ exists c, getitem ps m = Ok c /\ 0 < c.
Proof.
  induction idxs as [|i rest IH]; intros l; simpl.
  - intros [= <-]. split; [constructor|].
    intros m. split; [intros []|intros [[] _]].
  - destruct (getitem ps i) as [c|e] eqn:Hc; simpl; [|discriminate].
    destruct (nonempty_pits ps rest) as [r|e] eqn:Hr; simpl; [|discriminate].
    destruct (IH r eq_refl) as [Hsub Hmem].
    destruct (Z.ltb_spec 0 c) as [Hpos|Hnonpos]; intros [= <-].
    + split; [now constructor|].
      intros m. simpl. rewrite Hmem. split.
      * intros [<-|[Hin Hx]]; eauto.
      * intros [[<-|Hin] Hx]; auto.
    + split; [now constructor|].
      intros m. rewrite Hmem. simpl. split.
      * intros [Hin Hx]. auto.
      * intros [[<-|Hin] (c' & Hc' & Hpos)]; [|eauto].
        rewrite Hc in Hc'. injection Hc' as <-. lia.
Qed.

Lemma nonempty_pits_total (ps : list Z) idxs :
  (forall i, In i idxs -> 0 <= i < Z.of_nat (length ps)) ->
  exists l, nonempty_pits ps idxs = Ok l.
Proof.
  induction idxs as [|i rest IH]; intros Hin; simpl; [eauto|].
  destruct (getitem_in_range ps i (Z.to_nat i)) as (c & -> & _).
  { apply norm_index_nonneg, Hin. now left. }
  destruct IH as [r ->]; [intros j Hj; apply Hin; now right|].
  simpl. eauto.
Qed.

Lemma nonempty_pits_Raise (ps : list Z) idxs i :
  In i idxs -> norm_index (length ps) i = None ->
  nonempty_pits ps idxs = Raise IndexError.
Proof.
  intros Hin Hnone. induction idxs as [|a rest IH]; [destruct Hin|].
  simpl. destruct (getitem ps a) as [c|e] eqn:Ha; simpl.
  - destruct Hin as [->|Hin].
    + apply getitem_Ok in Ha as (n & Hn & _). congruence.
    + rewrite (IH Hin). reflexivity.
  - now rewrite (getitem_Raise _ _ _ Ha).
Qed.

Lemma legal_moves_range s :
  generate_legal_moves s
  = nonempty_pits (pits s) (range (fst (side_range s)) (snd (side_range s))).
Proof. unfold generate_legal_moves, side_range. now destruct (turn s =? 0). Qed.

Lemma side_range_bounds s :
  0 <= fst (side_range s) /\ snd (side_range s) <= 18.
Proof. unfold side_range. destruct (turn s =? 0); simpl; lia. Qed.

Lemma legal_move_in_range s l m :
  generate_legal_moves s = Ok l -> In m l ->
  0 <= m < 18 /\ exists c, getitem (pits s) m = Ok c /\ 0 < c.
Proof.
  rewrite legal_moves_range. intros Hl Hm.
  apply nonempty_pits_Ok in Hl as [_ Hmem].
  apply Hmem in Hm as [Hin Hc]. apply In_range in Hin.
  pose proof (side_range_bounds s). split; [lia|exact Hc].
Qed.

Lemma legal_moves_total s :
  (18 <= length (pits s))%nat -> exists l, generate_legal_moves s = Ok l.
Proof.
  intros Hlen. rewrite legal_moves_range. apply nonempty_pits_total.
  intros i Hi. apply In_range in Hi. pose proof (side_range_bounds s). lia.
Qed.

(** X1: on a board with at least 18 pits [generate_legal_moves] returns,
    and the list holds, in ascending order, exactly the indices of the
    mover's row ([0..8] when [turn == 0], [9..17] for any other [turn])
    whose pit count is positive. *)
Theorem legal_moves_char (s : ToguzBoard) :
  (18 <= length (pits s))%nat ->
  exists l, generate_legal_moves s = Ok l /\
    sublist l (range (fst (side_range s)) (snd (side_range s))) /\
    forall m, In m l <->
      fst (side_range s) <= m < snd (side_range s) /\
      exists c, getitem (pits s) m = Ok c /\ 0 < c.
Proof.
  intros Hlen. destruct (legal_moves_total s Hlen) as [l Hl].
  exists l. split; [exact Hl|].
  rewrite legal_moves_range in Hl.
  apply nonempty_pits_Ok in Hl as [Hsub Hmem].
  split; [exact Hsub|]. intros m. rewrite Hmem, In_range. reflexivity.
Qed.

Lemma legal_moves_char_witness :
  exists l, generate_legal_moves board_after_pit0 = Ok l /\
    sublist l (range 9 18) /\
    forall m, In m l <->
      9 <= m < 18 /\ exists c, getitem (pits board_after_pit0) m = Ok c /\ 0 < c.
Proof.
  apply (legal_moves_char board_after_pit0). simpl. lia.
Defined.

(** X2: [generate_legal_moves] raises exactly when the board has fewer
    pits than the mover's row needs (9 when [turn == 0], 18 otherwise),
    and then it raises [IndexError]. *)
Theorem legal_moves_raises (s : ToguzBoard) (e : exn) :
  generate_legal_moves s = Raise e <->
  e = IndexError /\
  (length (pits s) < pits_needed s)%nat.
Proof.
  assert (Hsnd : Z.of_nat (pits_needed s) = snd (side_range s)).
  { unfold side_range, pits_needed. now destruct (turn s =? 0). }
  rewrite legal_moves_range. split.
  - intros H.
    destruct (le_lt_dec (pits_needed s) (length (pits s))) as [Hge|Hlt].
    + destruct (nonempty_pits_total (pits s)
                  (range (fst (side_range s)) (snd (side_range s)))) as [l Hl].
      * intros i Hi. apply In_range in Hi.
        pose proof (side_range_bounds s). lia.
      * congruence.
    + split; [|exact Hlt].
      rewrite (nonempty_pits_Raise (pits s) _ (snd (side_range s) - 1)) in H.
      * congruence.
      * apply In_range. unfold side_range. destruct (turn s =? 0); simpl; lia.
      * apply norm_index_None. right. lia.
  - intros [-> Hlt].
    apply (nonempty_pits_Raise (pits s) _ (snd (side_range s) - 1)).
    + apply In_range. unfold side_range. destruct (turn s =? 0); simpl; lia.
    + apply norm_index_None. right. lia.
Qed.

(** X3: a move returned by [generate_legal_moves] is always accepted by
    [apply_move]; it removes a positive number of seeds from the board
    total, and the pit played is not a legal move of the new board. *)
Theorem legal_move_applies (s : ToguzBoard) (l : list Z) (m : Z) :
  generate_legal_moves s = Ok l -> In m l ->
  exists s' c, apply_move s m = Ok s' /\ 0 < c /\
    total s' = total s - c /\
    forall l', generate_legal_moves s' = Ok l' -> ~ In m l'.
Proof.
  intros Hl Hm.
  destruct (legal_move_in_range s l m Hl Hm) as (Hrange & c & Hc & Hpos).
  pose proof Hc as Hc'. apply getitem_Ok in Hc' as (n & Hn & Hlook).
  assert (Hmove : apply_move s m =
            Ok {| pits := <[n := 0]> (pits s); kazans := kazans s;
                  turn := Z.lxor (turn s) 1 |}) by (apply apply_move_Ok; eauto).
  eexists _, c. split; [exact Hmove|]. split; [exact Hpos|]. split.
  - destruct (apply_move_removes _ _ _ Hmove) as (c' & Hc2 & Ht).
    rewrite Hc in Hc2. injection Hc2 as <-. exact Ht.
  - intros l' Hl' Hin.
    destruct (legal_move_in_range _ l' m Hl' Hin) as (_ & c0 & Hc0 & Hpos0).
    apply getitem_Ok in Hc0 as (n0 & Hn0 & Hlook0). simpl in *.
    rewrite length_insert, Hn in Hn0. injection Hn0 as <-.
    rewrite list_lookup_insert_eq in Hlook0.
    + injection Hlook0 as <-. lia.
    + now apply lookup_lt_Some in Hlook.
Qed.

Lemma legal_move_applies_witness :
  exists s' c, apply_move ToguzBoard_default 3 = Ok s' /\ 0 < c /\
    total s' = total ToguzBoard_default - c /\
    forall l', generate_legal_moves s' = Ok l' -> ~ In 3 l'.
Proof.
  apply (legal_move_applies ToguzBoard_default [0; 1; 2; 3; 4; 5; 6; 7; 8] 3).
  - reflexivity.
  - simpl. lia.
Defined.

(** X4: [apply_move] raises exactly when [pit_index] is outside
    [-len(pits) .. len(pits) - 1], and the only exception it raises is
    [IndexError]. *)
Theorem apply_move_raises (s : ToguzBoard) (i : Z) (e : exn) :
  apply_move s i = Raise e <->
  e = IndexError /\
  (i < - Z.of_nat (length (pits s)) \/ Z.of_nat (length (pits s)) <= i).
Proof.
  rewrite apply_move_Raise, norm_index_None_iff. tauto.
Qed.

(** X5: a negative [pit_index] within [-len(pits) .. -1] is counted from
    the end of the pit list: the move is the one on [len(pits) + pit_index]. *)
Theorem apply_move_negative_index (s : ToguzBoard) (i : Z) :
  - Z.of_nat (length (pits s)) <= i < 0 ->
  apply_move s i = apply_move s (Z.of_nat (length (pits s)) + i) /\
  exists s', apply_move s i = Ok s'.
Proof.
  intros Hi.
  assert (H1 : norm_index (length (pits s)) i
               = Some (Z.to_nat (Z.of_nat (length (pits s)) + i)))
    by (apply norm_index_neg; lia).
  assert (H2 : norm_index (length (pits s)) (Z.of_nat (length (pits s)) + i)
               = Some (Z.to_nat (Z.of_nat (length (pits s)) + i)))
    by (apply norm_index_nonneg; lia).
  unfold apply_move, setitem; simpl. rewrite H1, H2. simpl. eauto.
Qed.

Lemma apply_move_negative_index_witness :
  apply_move ToguzBoard_default (-18) = apply_move ToguzBoard_default (18 + -18) /\
  exists s', apply_move ToguzBoard_default (-18) = Ok s'.
Proof.
  apply (apply_move_negative_index ToguzBoard_default (-18)). simpl. lia.
Defined.

Lemma lxor_1_involutive t : Z.lxor (Z.lxor t 1) 1 = t.
Proof. rewrite Z.lxor_assoc. simpl. apply Z.lxor_0_r. Qed.

(** X6: playing the same pit twice in a row gives the board of the first
    move with the original side to move again: the second move changes
    no pit and flips [turn] back. *)
Theorem apply_move_twice (s s1 : ToguzBoard) (i : Z) :
  apply_move s i = Ok s1 ->
  apply_move s1 i
  = Ok {| pits := pits s1; kazans := kazans s; turn := turn s |}.
Proof.
  intros H. apply apply_move_Ok in H as (n & Hn & ->).
  apply apply_move_Ok. exists n. simpl. rewrite length_insert.
  split; [exact Hn|].
  rewrite list_insert_insert_eq, lxor_1_involutive. reflexivity.
Qed.

Lemma apply_move_twice_witness :
  apply_move board_after_pit0 0
  = Ok {| pits := pits board_after_pit0; kazans := kazans ToguzBoard_default;
          turn := turn ToguzBoard_default |}.
Proof.
  apply (apply_move_twice ToguzBoard_default board_after_pit0 0). reflexivity.
Defined.

(** ** ToguzBoard.copy *)

(** X7: [copy] returns a board object that did not exist before, whose
    pit list is a new list object as well (no list is shared with the
    original); the new board denotes the same value as the original, and
    every object that existed before the call is unchanged. *)
Theorem copy_is_deep (h : gmap Store.loc Store.obj) (b : Store.loc) (s : ToguzBoard) :
  Store.read h b = Some s ->
  exists nb p' h',
    Store.copy b h = (Ok nb, h') /\
    h !! nb = None /\ h !! p' = None /\
    h' !! nb = Some (Store.BoardObj p' (kazans s) (turn s)) /\
    h' !! p' = Some (Store.ListObj (pits s)) /\
    Store.read h' nb = Some s /\
    Store.read h' b = Some s /\
    (forall l, is_Some (h !! l) -> h' !! l = h !! l).
Proof.
  intros Hs. pose proof Hs as Hs0. apply read_Some in Hs as (p & Hb & Hp).
  unfold Store.copy, Store.deepcopy.
  unfold mbind, St_bind, Store.load_board, Store.load_list, Store.alloc.
  rewrite Hb, Hp.
  set (l1 := fresh (dom h)).
  set (h1 := <[l1 := Store.ListObj (pits s)]> h).
  set (l2 := fresh (dom h1)).
  assert (F1 : h !! l1 = None) by apply fresh_unused.
  assert (F2 : h1 !! l2 = None) by apply fresh_unused.
  assert (N12 : l1 <> l2).
  { apply used_not_fresh. unfold h1. rewrite lookup_insert_eq. eauto. }
  assert (F2' : h !! l2 = None).
  { unfold h1 in F2. rewrite lookup_insert_ne in F2 by exact N12. exact F2. }
  assert (Hfr : forall l, is_Some (h !! l) ->
            <[l2 := Store.BoardObj l1 (kazans s) (turn s)]> h1 !! l = h !! l).
  { intros l [o Ho]. unfold h1.
    rewrite !lookup_insert_ne; [reflexivity| |]; intros ->; congruence. }
  assert (Hnb : <[l2 := Store.BoardObj l1 (kazans s) (turn s)]> h1 !! l2
                = Some (Store.BoardObj l1 (kazans s) (turn s)))
    by apply lookup_insert_eq.
  assert (Hp' : <[l2 := Store.BoardObj l1 (kazans s) (turn s)]> h1 !! l1
                = Some (Store.ListObj (pits s))).
  { rewrite lookup_insert_ne by auto. unfold h1. apply lookup_insert_eq. }
  exists l2, l1. eexists. split; [reflexivity|].
  repeat (split; [assumption|]).
  split; [apply read_Some; eauto|].
  split; [now apply (read_frame h)|exact Hfr].
Qed.

Lemma copy_is_deep_witness :
  exists nb p' h',
    Store.copy 5%positive heap_other = (Ok nb, h') /\
    heap_other !! nb = None /\ heap_other !! p' = None /\
    h' !! nb = Some (Store.BoardObj p' (kazans ToguzBoard_default)
                       (turn ToguzBoard_default)) /\
    h' !! p' = Some (Store.ListObj (pits ToguzBoard_default)) /\
    Store.read h' nb = Some ToguzBoard_default /\
    Store.read h' 5%positive = Some ToguzBoard_default /\
    (forall l, is_Some (heap_other !! l) -> h' !! l = heap_other !! l).
Proof.
  apply (copy_is_deep heap_other 5%positive ToguzBoard_default). reflexivity.
Defined.

(** ** MoveHistory: add, rewind_to, as_table and trimming *)

Lemma add_length h note b :
  length (_records (add h note b)) = S (length (_records h)).
Proof. unfold add; simpl. rewrite length_app. simpl. lia. Qed.

Lemma rewind_to_nonzero (h : MoveHistory) p :
  p <> 0 ->
  rewind_to h p = (r ← getitem (_records h) (p - 1); Ok (board_snapshot r)).
Proof. intros Hp. unfold rewind_to, copy. apply Z.eqb_neq in Hp. now rewrite Hp. Qed.

Lemma getitem_nonneg {A} (l : list A) i x :
  0 <= i -> l !! Z.to_nat i = Some x -> getitem l i = Ok x.
Proof.
  intros Hi Hx. apply getitem_Ok. exists (Z.to_nat i). split; [|exact Hx].
  apply norm_index_nonneg. apply lookup_lt_Some in Hx. lia.
Qed.

Lemma getitem_too_large {A} (l : list A) i :
  Z.of_nat (length l) <= i -> getitem l i = Raise IndexError.
Proof. intros H. apply getitem_out_of_range, norm_index_None. auto. Qed.

Lemma getitem_prefix {A} (l l' : list A) i :
  0 <= i < Z.of_nat (length l) ->
  (forall n, (n < length l)%nat -> l !! n = l' !! n) ->
  (length l <= length l')%nat ->
  getitem l i = getitem l' i.
Proof.
  intros Hi Hsame Hlen. unfold getitem.
  rewrite !norm_index_nonneg by lia. rewrite Hsame by lia. reflexivity.
Qed.

(** X8: after [add(notation, board)] on a history of [n] entries,
    [rewind_to(n + 1)] returns that board, and [rewind_to(p)] for
    [0 <= p <= n] returns what it returned before the [add]. *)
Theorem add_then_rewind (h : MoveHistory) (note : string) (b : ToguzBoard) :
  rewind_to (add h note b) (Z.of_nat (length (_records h)) + 1) = Ok b /\
  forall p, 0 <= p <= Z.of_nat (length (_records h)) ->
    rewind_to (add h note b) p = rewind_to h p.
Proof.
  split.
  - rewrite rewind_to_nonzero by lia.
    rewrite (getitem_nonneg _ _
               {| ply := Z.of_nat (length (_records h)) + 1; notation := note;
                  board_snapshot := b |}); [reflexivity|lia|].
    unfold add, copy; simpl.
    replace (Z.to_nat (Z.of_nat (length (_records h)) + 1 - 1))
      with (length (_records h) + 0)%nat by lia.
    rewrite lookup_app_r by lia.
    replace (length (_records h) + 0 - length (_records h))%nat with O by lia.
    reflexivity.
  - intros p Hp. destruct (Z.eq_dec p 0) as [->|Hnz]; [reflexivity|].
    rewrite !rewind_to_nonzero by exact Hnz.
    rewrite (getitem_prefix (_records h) (_records (add h note b))); [reflexivity|lia| |].
    + intros n Hn. unfold add; simpl. now rewrite lookup_app_l.
    + rewrite add_length. lia.
Qed.

Lemma add_then_rewind_witness :
  rewind_to (add history_two "P:3" board_after_pit0) 1 = rewind_to history_two 1.
Proof.
  apply (proj2 (add_then_rewind history_two "P:3" board_after_pit0) 1).
  simpl. lia.
Defined.

Lemma range_snoc lo hi :
  lo <= hi -> range lo (hi + 1) = range lo hi ++ [hi].
Proof.
  intros H. unfold range.
  replace (Z.to_nat (hi + 1 - lo)) with (Z.to_nat (hi - lo) + 1)%nat by lia.
  rewrite seq_app, map_app. simpl. do 2 f_equal. lia.
Qed.

Lemma ply_dense_plies (l : list MoveRecord) :
  ply_dense {| _records := l |} ->
  map ply l = range 1 (Z.of_nat (length l) + 1).
Proof.
  induction l as [|r l IH] using rev_ind; intros Hd; [reflexivity|].
  rewrite map_app, length_app. simpl.
  replace (Z.of_nat (length l + 1) + 1) with (Z.of_nat (length l) + 1 + 1) by lia.
  rewrite range_snoc by lia. f_equal.
  - apply IH. intros i x Hx. apply Hd. simpl in *. now apply lookup_app_l_Some.
  - f_equal. apply (Hd (length l)). simpl.
    rewrite lookup_app_r by lia. now rewrite Nat.sub_diag.
Qed.

(** X9: for every history built by [add] and trimming, [as_table] has one
    row per entry and its first column is [1, 2, ..., n]. *)
Theorem as_table_plies (h : MoveHistory) :
  produced h ->
  length (as_table h) = length (_records h) /\
  map fst (as_table h) = range 1 (Z.of_nat (length (_records h)) + 1).
Proof.
  intros Hp. unfold as_table. split; [apply length_map|].
  rewrite map_map. simpl.
  apply ply_dense_plies. destruct h as [l]. exact (produced_dense _ Hp).
Qed.

Lemma as_table_plies_witness :
  length (as_table (history_of_len 5)) = length (_records (history_of_len 5)) /\
  map fst (as_table (history_of_len 5)) = range 1 (5 + 1).
Proof.
  apply (as_table_plies (history_of_len 5)).
  repeat apply produced_add. apply produced_new.
Defined.

Lemma truncate_nonneg_take h k :
  0 <= k -> _records (truncate h k) = take (Z.to_nat k) (_records h).
Proof.
  intros Hk. unfold truncate, slice_to; simpl.
  apply Z.leb_le in Hk. now rewrite Hk.
Qed.

(** X10: trimming to a row index [k >= 0] keeps the first [k] rows of the
    table (all of them when [k] exceeds the length), and trimming twice to
    the same [k] is the same as trimming once. *)
Theorem truncate_keeps_prefix (h : MoveHistory) (k : Z) :
  0 <= k ->
  as_table (truncate h k) = take (Z.to_nat k) (as_table h) /\
  length (_records (truncate h k)) = Nat.min (Z.to_nat k) (length (_records h)) /\
  truncate (truncate h k) k = truncate h k.
Proof.
  intros Hk. split; [|split].
  - unfold as_table. rewrite truncate_nonneg_take by exact Hk.
    symmetry. apply firstn_map.
  - rewrite truncate_nonneg_take by exact Hk. apply length_take.
  - unfold truncate. f_equal. cbn [_records].
    unfold slice_to. apply Z.leb_le in Hk. rewrite Hk.
    rewrite take_take, Nat.min_id. reflexivity.
Qed.

Lemma truncate_keeps_prefix_witness :
  as_table (truncate (history_of_len 5) 2)
    = take (Z.to_nat 2) (as_table (history_of_len 5)) /\
  length (_records (truncate (history_of_len 5) 2))
    = Nat.min (Z.to_nat 2) (length (_records (history_of_len 5))) /\
  truncate (truncate (history_of_len 5) 2) 2 = truncate (history_of_len 5) 2.
Proof.
  apply (truncate_keeps_prefix (history_of_len 5) 2). lia.
Defined.

(** X11: after trimming to [k >= 0], [rewind_to(p)] still returns the same
    board for every [0 <= p <= k] within the old length, and raises
    [IndexError] for every [p > k]: the discarded entries are gone. *)
Theorem truncate_then_rewind (h : MoveHistory) (k : Z) :
  0 <= k ->
  (forall p, 0 <= p <= k -> p <= Z.of_nat (length (_records h)) ->
     rewind_to (truncate h k) p = rewind_to h p) /\
  (forall p, k < p -> rewind_to (truncate h k) p = Raise IndexError).
Proof.
  intros Hk.
  pose proof (truncate_nonneg_take h k Hk) as Ht.
  assert (Hlen : length (_records (truncate h k))
                 = Nat.min (Z.to_nat k) (length (_records h)))
    by (rewrite Ht; apply length_take).
  split.
  - intros p Hp Hp'. destruct (Z.eq_dec p 0) as [->|Hnz]; [reflexivity|].
    rewrite !rewind_to_nonzero by exact Hnz.
    rewrite (getitem_prefix (_records (truncate h k)) (_records h));
      [reflexivity|lia| |lia].
    intros n Hn. rewrite Ht. apply lookup_take_lt. lia.
  - intros p Hp. rewrite rewind_to_nonzero by lia.
    rewrite getitem_too_large by lia. reflexivity.
Qed.

Lemma truncate_then_rewind_witness :
  rewind_to (truncate history_two 1) 1 = rewind_to history_two 1 /\
  rewind_to (truncate history_two 1) 2 = Raise IndexError.
Proof.
  destruct (truncate_then_rewind history_two 1 ltac:(lia)) as [Hkeep Hgone].
  split.
  - apply Hkeep; simpl; lia.
  - apply Hgone. lia.
Defined.

(** ** The handlers of GameUI *)

Lemma read_pits_ok (ps : list Z) idxs :
  (forall i, In i idxs -> 0 <= i < Z.of_nat (length ps)) ->
  read_pits ps idxs = Ok tt.
Proof.
  induction idxs as [|i rest IH]; intros Hin; simpl; [reflexivity|].
  destruct (getitem_in_range ps i (Z.to_nat i)) as (c & -> & _).
  { apply norm_index_nonneg, Hin. now left. }
  simpl. apply IH. intros j Hj. apply Hin. now right.
Qed.

Lemma draw_board_ok ui :
  (18 <= length (pits (board_model ui)))%nat -> _draw_board ui = (Ok tt, ui).
Proof.
  intros Hlen. unfold _draw_board, mbind, St_bind, get, lift.
  rewrite !read_pits_ok; [reflexivity| |];
    intros i Hi; apply In_range in Hi; lia.
Qed.

Lemma apply_move_length s i s' :
  apply_move s i = Ok s' -> length (pits s') = length (pits s).
Proof.
  intros H. apply apply_move_Ok in H as (n & _ & ->). simpl.
  apply length_insert.
Qed.

Lemma apply_move_with_step reply pit by_engine ui b :
  (18 <= length (pits (board_model ui)))%nat ->
  apply_move (board_model ui) pit = Ok b ->
  _apply_move_with reply pit by_engine ui
  = (if negb by_engine then reply else mret tt) (record_move ui pit by_engine b).
Proof.
  intros Hlen Hb.
  assert (Hd : _draw_board (record_move ui pit by_engine b)
               = (Ok tt, record_move ui pit by_engine b)).
  { apply draw_board_ok. simpl. rewrite (apply_move_length _ _ _ Hb). exact Hlen. }
  unfold _apply_move_with, _push_history, mbind, St_bind, get, lift,
    set_board_model, set_history.
  rewrite Hb. cbn [board_model history board_size].
  unfold record_move, ui_with in Hd. rewrite Hd. reflexivity.
Qed.

Lemma legal_move_accepted s l m :
  generate_legal_moves s = Ok l -> In m l ->
  exists s', apply_move s m = Ok s'.
Proof.
  intros Hl Hm.
  destruct (legal_move_in_range s l m Hl Hm) as (_ & x & Hx & _).
  apply getitem_Ok in Hx as (n & Hn & _).
  eexists. apply apply_move_Ok. eauto.
Qed.

Lemma engine_reply_applies s c rest :
  generate_legal_moves s = Ok (c :: rest) ->
  exists s', apply_move s c = Ok s'.
Proof. intros Hl. apply (legal_move_accepted s (c :: rest)); [exact Hl|now left]. Qed.

Lemma engine_move_none ui :
  generate_legal_moves (board_model ui) = Ok [] ->
  _engine_move ui = (Ok tt, ui).
Proof.
  intros Hl. unfold _engine_move, mbind, St_bind, get, lift. now rewrite Hl.
Qed.

Lemma engine_move_some ui c rest b :
  (18 <= length (pits (board_model ui)))%nat ->
  generate_legal_moves (board_model ui) = Ok (c :: rest) ->
  apply_move (board_model ui) c = Ok b ->
  _engine_move ui = (Ok tt, record_move ui c true b).
Proof.
  intros Hlen Hl Hb. unfold _engine_move, mbind, St_bind, get, lift.
  rewrite Hl. now rewrite (apply_move_with_step _ c true ui b Hlen Hb).
Qed.

(** X12: a click on a pit that is a legal move is played and recorded
    with a ["P:"] notation; then the engine answers at once with the first
    legal move of the new board, recorded with an ["AI:"] notation, which
    hands the turn back to the side that clicked.  When the new board has
    no legal move, nothing more is played.  Nothing is raised. *)
Theorem click_plays_move (ui : GameUI) (x y : Q) (pit : Z) (legal : list Z) :
  (18 <= length (pits (board_model ui)))%nat ->
  _screen_to_pit ui x y = Some pit ->
  generate_legal_moves (board_model ui) = Ok legal ->
  In pit legal ->
  exists b1 replies,
    apply_move (board_model ui) pit = Ok b1 /\
    generate_legal_moves b1 = Ok replies /\
    match replies with
    | [] => on_board_click x y ui = (Ok tt, record_move ui pit false b1)
    | c :: _ =>
        exists b2, apply_move b1 c = Ok b2 /\
          turn b2 = turn (board_model ui) /\
          on_board_click x y ui
          = (Ok tt, record_move (record_move ui pit false b1) c true b2)
    end.
Proof.
  intros Hlen Hpit Hlegal Hin.
  destruct (legal_move_accepted (board_model ui) legal pit Hlegal Hin)
    as (b1 & Hb1).
  pose proof (apply_move_length _ _ _ Hb1) as Hlen1.
  destruct (legal_moves_total b1) as [replies Hr]; [lia|].
  exists b1, replies. split; [exact Hb1|]. split; [exact Hr|].
  assert (Hclick : on_board_click x y ui
                   = _engine_move (record_move ui pit false b1)).
  { unfold on_board_click, mbind, St_bind, get, lift. rewrite Hpit, Hlegal.
    rewrite bool_decide_eq_true_2 by (now apply list_elem_of_In).
    unfold _apply_move. now rewrite (apply_move_with_step _ pit false ui b1 Hlen Hb1). }
  rewrite Hclick. destruct replies as [|c rest].
  - now apply engine_move_none.
  - destruct (engine_reply_applies b1 c rest Hr) as [b2 Hb2].
    exists b2. split; [exact Hb2|]. split.
    + apply apply_move_Ok in Hb1 as (n1 & _ & ->).
      apply apply_move_Ok in Hb2 as (n2 & _ & ->). simpl.
      apply lxor_1_involutive.
    + apply (engine_move_some _ c rest); simpl; [lia|exact Hr|exact Hb2].
Qed.

Lemma click_plays_move_witness :
  exists b1 replies,
    apply_move ToguzBoard_default 0 = Ok b1 /\
    generate_legal_moves b1 = Ok replies /\
    match replies with
    | [] => on_board_click 18 27 (GameUI_new (360, 80)%Q)
            = (Ok tt, record_move (GameUI_new (360, 80)%Q) 0 false b1)
    | c :: _ =>
        exists b2, apply_move b1 c = Ok b2 /\
          turn b2 = turn ToguzBoard_default /\
          on_board_click 18 27 (GameUI_new (360, 80)%Q)
          = (Ok tt, record_move (record_move (GameUI_new (360, 80)%Q) 0 false b1)
                      c true b2)
    end.
Proof.
  apply (click_plays_move (GameUI_new (360, 80)%Q) 18 27 0
           [0; 1; 2; 3; 4; 5; 6; 7; 8]).
  - simpl. lia.
  - reflexivity.
  - reflexivity.
  - simpl. lia.
Defined.

Lemma reachable_length s : reachable s -> length (pits s) = 18%nat.
Proof. intros H. now destruct (reachable_inv s H) as (_ & ? & _). Qed.

Lemma record_move_inv ui pit by_engine b :
  ui_inv ui -> apply_move (board_model ui) pit = Ok b ->
  ui_inv (record_move ui pit by_engine b).
Proof.
  intros (Hb & Hs & Hp) Hm.
  assert (Hb' : reachable b) by exact (reach_move _ _ _ Hb Hm).
  split; [exact Hb'|]. split; [|now apply produced_add].
  simpl. apply Forall_app. split; [exact Hs|]. now repeat constructor.
Qed.

(** The possible outcomes of the board-click branch in a session. *)
Lemma board_click_cases ui x y :
  ui_inv ui ->
  exists ui', on_board_click x y ui = (Ok tt, ui') /\ ui_inv ui'.
Proof.
  intros Hinv. pose proof Hinv as (Hb & _ & _).
  pose proof (reachable_length _ Hb) as Hlen.
  destruct (_screen_to_pit ui x y) as [pit|] eqn:Hpit.
  - destruct (legal_moves_total (board_model ui)) as [legal Hl]; [lia|].
    destruct (decide (pit ∈ legal)) as [Hin|Hout].
    + apply list_elem_of_In in Hin.
      destruct (legal_move_accepted _ legal pit Hl Hin) as (b1 & Hb1).
      pose proof (record_move_inv ui pit false b1 Hinv Hb1) as Hinv1.
      pose proof (apply_move_length _ _ _ Hb1) as Hlen1.
      assert (Hclick : on_board_click x y ui
                       = _engine_move (record_move ui pit false b1)).
      { unfold on_board_click, mbind, St_bind, get, lift. rewrite Hpit, Hl.
        rewrite bool_decide_eq_true_2 by (now apply list_elem_of_In).
        unfold _apply_move.
        now rewrite (apply_move_with_step _ pit false ui b1) by (exact Hb1 || lia). }
      rewrite Hclick.
      destruct (legal_moves_total b1) as [[|c rest] Hr]; [lia| |].
      * eexists. split; [now apply engine_move_none|exact Hinv1].
      * destruct (engine_reply_applies b1 c rest Hr) as [b2 Hb2].
        eexists. split.
        -- apply (engine_move_some _ c rest); simpl; [lia|exact Hr|exact Hb2].
        -- now apply record_move_inv.
    + exists ui. split; [|exact Hinv].
      unfold on_board_click, mbind, St_bind, get, lift. rewrite Hpit, Hl.
      now rewrite bool_decide_eq_false_2.
  - exists ui. split; [|exact Hinv].
    unfold on_board_click, mbind, St_bind, get. now rewrite Hpit.
Qed.

Lemma rewind_to_Raise h p e : rewind_to h p = Raise e -> e = IndexError.
Proof.
  unfold rewind_to. destruct (p =? 0); [discriminate|].
  destruct (getitem (_records h) (p - 1)) as [r|e'] eqn:E; simpl; [discriminate|].
  intros [= <-]. exact (getitem_Raise _ _ _ E).
Qed.

Lemma rewind_to_reachable h p b :
  Forall (fun r => reachable (board_snapshot r)) (_records h) ->
  rewind_to h p = Ok b -> reachable b.
Proof.
  intros Hs. unfold rewind_to, copy. destruct (p =? 0).
  - intros [= <-]. apply reach_init.
  - destruct (getitem (_records h) (p - 1)) as [r|e] eqn:E; simpl; [|discriminate].
    intros [= <-]. apply getitem_Ok in E as (n & _ & Hr).
    rewrite Forall_forall in Hs. apply Hs.
    eapply list_elem_of_lookup_2; eauto.
Qed.

Lemma table_select_step ui row rest b :
  (18 <= length (pits b))%nat ->
  rewind_to (history ui) row = Ok b ->
  on_table_select (row :: rest) ui
  = (Ok tt, ui_with ui b (truncate (history ui) row)).
Proof.
  intros Hlen Hb.
  unfold on_table_select, mbind, St_bind, get, lift, set_board_model, set_history.
  rewrite Hb. cbn [board_model history board_size].
  apply (draw_board_ok (ui_with ui b (truncate (history ui) row))). exact Hlen.
Qed.

Lemma table_select_cases ui rows :
  ui_inv ui ->
  (exists ui', on_table_select rows ui = (Ok tt, ui') /\ ui_inv ui') \/
  (exists row rest, rows = row :: rest /\
     rewind_to (history ui) row = Raise IndexError /\
     on_table_select rows ui = (Raise IndexError, ui)).
Proof.
  intros Hinv. pose proof Hinv as (Hb & Hs & Hp).
  destruct rows as [|row rest]; [left; exists ui; split; [reflexivity|exact Hinv]|].
  destruct (rewind_to (history ui) row) as [b|e] eqn:Hr.
  - left. pose proof (rewind_to_reachable _ _ _ Hs Hr) as Hb'.
    exists (ui_with ui b (truncate (history ui) row)). split.
    + apply table_select_step; [|exact Hr]. rewrite (reachable_length _ Hb'). lia.
    + split; [exact Hb'|]. split; [|now apply produced_truncate].
      simpl. destruct (slice_to_take (_records (history ui)) row) as [n ->].
      now apply Forall_take.
  - right. exists row, rest. split; [reflexivity|].
    pose proof (rewind_to_Raise _ _ _ Hr) as ->. split; [exact Hr|].
    unfold on_table_select, mbind, St_bind, get, lift. now rewrite Hr.
Qed.

(** X13: selecting table row [row_idx] with [0 <= row_idx <= n] in a
    session raises nothing: the board becomes the one [rewind_to] returns,
    the ledger keeps exactly its first [row_idx] entries, and the board
    area is untouched. *)
Theorem table_select_rewinds (ui : GameUI) (row_idx : Z) (rest : list Z) :
  ui_inv ui ->
  0 <= row_idx <= Z.of_nat (length (_records (history ui))) ->
  exists b,
    rewind_to (history ui) row_idx = Ok b /\
    on_table_select (row_idx :: rest) ui
    = (Ok tt, ui_with ui b (truncate (history ui) row_idx)) /\
    _records (truncate (history ui) row_idx)
    = take (Z.to_nat row_idx) (_records (history ui)) /\
    length (_records (truncate (history ui) row_idx)) = Z.to_nat row_idx.
Proof.
  intros (Hb & Hs & Hp) Hrow.
  assert (Hok : exists b, rewind_to (history ui) row_idx = Ok b).
  { destruct (Z.eq_dec row_idx 0) as [->|Hnz]; [now exists ToguzBoard_default|].
    destruct (lookup_lt_is_Some_2 (_records (history ui))
                (Z.to_nat (row_idx - 1))) as [r Hr]; [lia|].
    exists (board_snapshot r).
    apply (rewind_to_index _ _ (Z.to_nat (row_idx - 1))); [exact Hnz| |exact Hr].
    apply norm_index_nonneg. lia. }
  destruct Hok as [b Hr]. exists b. split; [exact Hr|].
  pose proof (rewind_to_reachable _ _ _ Hs Hr) as Hb'.
  split; [|split].
  - apply table_select_step; [|exact Hr]. rewrite (reachable_length _ Hb'). lia.
  - apply truncate_nonneg_take. lia.
  - rewrite truncate_nonneg_take by lia. rewrite length_take. lia.
Qed.

Lemma table_select_rewinds_witness :
  exists b,
    rewind_to (history ui_after_click) 1 = Ok b /\
    on_table_select [1] ui_after_click
    = (Ok tt, ui_with ui_after_click b (truncate (history ui_after_click) 1)) /\
    _records (truncate (history ui_after_click) 1)
    = take (Z.to_nat 1) (_records (history ui_after_click)) /\
    length (_records (truncate (history ui_after_click) 1)) = Z.to_nat 1.
Proof.
  apply (table_select_rewinds ui_after_click 1 []).
  - split; [|split].
    + apply (reach_move board_after_pit0 9); [|reflexivity].
      apply (reach_move ToguzBoard_default 0); [apply reach_init|reflexivity].
    + repeat constructor; simpl.
      * apply (reach_move ToguzBoard_default 0); [apply reach_init|reflexivity].
      * apply (reach_move board_after_pit0 9); [|reflexivity].
        apply (reach_move ToguzBoard_default 0); [apply reach_init|reflexivity].
    + apply (produced_add (add MoveHistory_new _ _)), (produced_add MoveHistory_new),
        produced_new.
  - simpl. lia.
Defined.

Lemma run_cons_Ok ev rest ui ui' :
  match ev with
  | BoardClick x y => on_board_click x y ui = (Ok tt, ui')
  | TableSelect rows => on_table_select rows ui = (Ok tt, ui')
  | TimeoutEvent => ui' = ui
  | Closed => False
  end ->
  run (ev :: rest) ui = run rest ui'.
Proof.
  destruct ev; simpl; unfold mbind, St_bind.
  - now intros ->.
  - now intros ->.
  - now intros ->.
  - intros [].
Qed.

Lemma GameUI_new_inv size : ui_inv (GameUI_new size).
Proof.
  split; [apply reach_init|]. split; [constructor|apply produced_new].
Qed.

(** X14: whatever events arrive, and whether or not the loop ends with an
    exception, the state [run] leaves behind is that of a session: the
    board and every stored snapshot are reachable from the initial board,
    and the ledger's plies are [1..n] without gaps. *)
Theorem run_keeps_session_state (evs : list event) (ui : GameUI) :
  ui_inv ui ->
  ui_inv (snd (run evs ui)) /\
  ply_dense (history (snd (run evs ui))) /\
  length (pits (board_model (snd (run evs ui)))) = 18%nat.
Proof.
  intros Hinv.
  assert (H : ui_inv (snd (run evs ui))).
  { revert ui Hinv. induction evs as [|ev rest IH]; intros ui Hinv; [exact Hinv|].
    destruct ev as [x y|rows| |].
    - destruct (board_click_cases ui x y Hinv) as (ui' & Hc & Hinv').
      rewrite (run_cons_Ok (BoardClick x y) rest ui ui' Hc). now apply IH.
    - destruct (table_select_cases ui rows Hinv)
        as [(ui' & Hc & Hinv')|(row & rest' & _ & _ & Hc)].
      + rewrite (run_cons_Ok (TableSelect rows) rest ui ui' Hc). now apply IH.
      + simpl. unfold mbind, St_bind. rewrite Hc. exact Hinv.
    - rewrite (run_cons_Ok TimeoutEvent rest ui ui eq_refl). now apply IH.
    - exact Hinv. }
  split; [exact H|]. destruct H as (Hb & _ & Hp).
  split; [now apply produced_dense|now apply reachable_length].
Qed.

Lemma run_keeps_session_state_witness :
  ui_inv (snd (run [BoardClick 18 27; TableSelect [7]] (GameUI_new (360, 80)%Q))) /\
  ply_dense (history (snd (run [BoardClick 18 27; TableSelect [7]]
                             (GameUI_new (360, 80)%Q)))) /\
  length (pits (board_model (snd (run [BoardClick 18 27; TableSelect [7]]
                                    (GameUI_new (360, 80)%Q))))) = 18%nat.
Proof.
  apply (run_keeps_session_state [BoardClick 18 27; TableSelect [7]]
           (GameUI_new (360, 80)%Q)).
  apply GameUI_new_inv.
Defined.

(** X15: in a session [run] can only end with an exception through the
    table branch: the exception is [IndexError], and the events contain a
    table selection.  Board clicks, wherever they land, raise nothing. *)
Theorem run_raises_only_on_table_select (evs : list event) (ui : GameUI) (e : exn) :
  ui_inv ui ->
  fst (run evs ui) = Raise e ->
  e = IndexError /\ exists row rest, In (TableSelect (row :: rest)) evs.
Proof.
  revert ui. induction evs as [|ev tl IH]; intros ui Hinv; [discriminate|].
  destruct ev as [x y|rows| |].
  - destruct (board_click_cases ui x y Hinv) as (ui' & Hc & Hinv').
    rewrite (run_cons_Ok (BoardClick x y) tl ui ui' Hc). intros H.
    destruct (IH ui' Hinv' H) as (He & row & rest & Hin).
    split; [exact He|]. exists row, rest. now right.
  - destruct (table_select_cases ui rows Hinv)
      as [(ui' & Hc & Hinv')|(row & rest' & -> & _ & Hc)].
    + rewrite (run_cons_Ok (TableSelect rows) tl ui ui' Hc). intros H.
      destruct (IH ui' Hinv' H) as (He & row & rest & Hin).
      split; [exact He|]. exists row, rest. now right.
    + cbn [run]. unfold mbind, St_bind. rewrite Hc. simpl. intros [= <-].
      split; [reflexivity|]. exists row, rest'. now left.
  - rewrite (run_cons_Ok TimeoutEvent tl ui ui eq_refl). intros H.
    destruct (IH ui Hinv H) as (He & row & rest & Hin).
    split; [exact He|]. exists row, rest. now right.
  - discriminate.
Qed.

Lemma run_raises_only_on_table_select_witness :
  IndexError = IndexError /\
  exists row rest,
    In (TableSelect (row :: rest)) [BoardClick 18 27; TableSelect [7]].
Proof.
  apply (run_raises_only_on_table_select [BoardClick 18 27; TableSelect [7]]
           (GameUI_new (360, 80)%Q) IndexError).
  - apply GameUI_new_inv.
  - reflexivity.
Defined.

(** ** Hit testing: which clicks select which pit *)

Local Open Scope Q_scope.

Lemma pit_r_le_w w h : pit_r w h * 20 <= w.
Proof.
  unfold pit_r.
  assert (Qmin (w / 18) (h / 4) <= w / 18) by apply Q.le_min_l.
  assert (w / 18 * 18 == w) by field.
  lra.
Qed.

Lemma rows_apart w h : 0 < w -> w < 4 * h -> 5 * pit_r w h < h.
Proof. intros Hw Hwh. pose proof (pit_r_le_w w h). lra. Qed.

Lemma sq_nonneg (q : Q) : 0 <= q ^ 2.
Proof. generalize q. intros t. nra. Qed.

(** Two closed disks of radius [r] whose centres are [d] apart on one
    axis, with [d * d >= 4 r^2], meet in no interior point of the first. *)
Lemma disks_apart (r a b d : Q) :
  4 * (r * r) <= d * d ->
  a ^ 2 + b ^ 2 < r ^ 2 -> ~ ((a + d) ^ 2 + b ^ 2 <= r ^ 2).
Proof.
  intros Hd Hin Hout.
  pose proof (sq_nonneg (a + d + a)).
  pose proof (sq_nonneg b).
  nra.
Qed.

(** The same along the other axis, for two closed disks whose centres are
    more than [2 r] apart. *)
Lemma disks_disjoint (r a b d : Q) :
  0 < r -> 2 * r < d ->
  a ^ 2 + b ^ 2 <= r ^ 2 -> ~ (a ^ 2 + (b - d) ^ 2 <= r ^ 2).
Proof.
  intros Hr Hd H1 H2.
  pose proof (sq_nonneg (b + (b - d))).
  pose proof (sq_nonneg a).
  nra.
Qed.

Lemma far_outside (r a b : Q) :
  0 < r -> a < - r \/ r < a \/ b < - r \/ r < b -> r ^ 2 < a ^ 2 + b ^ 2.
Proof. intros Hr [H|[H|[H|H]]]; nra. Qed.

Lemma inject_Z_bounds (j : Z) :
  (0 <= j < 9)%Z -> 0 <= inject_Z j /\ inject_Z j <= 8.
Proof.
  intros [H0 H9]. split.
  - change 0 with (inject_Z 0). now rewrite <- Zle_Qle.
  - change 8 with (inject_Z 8). rewrite <- Zle_Qle. lia.
Qed.

Lemma strictly_inside_hit w h c x y :
  strictly_inside w h c x y -> inside w h c x y = true.
Proof. intros H. apply inside_true. now apply Qlt_le_weak. Qed.

Lemma bottom_interior_only w h x y i j :
  0 < pit_r w h -> i <> j ->
  strictly_inside w h (bottom_center w h i) x y ->
  hit_bottom w h x y j = false.
Proof.
  intros Hr Hne Hin. apply not_true_iff_false. unfold hit_bottom.
  rewrite inside_true. unfold strictly_inside in Hin.
  unfold bottom_center in *; cbn [fst snd] in *.
  pose proof (inject_Z_apart i j Hne) as Hd.
  set (r := pit_r w h) in *.
  set (a := x - (inject_Z i + 0.5) * 2 * r) in *.
  set (b := y - r * 1.5) in *.
  intros Hout.
  apply (disks_apart r a b ((inject_Z i - inject_Z j) * 2 * r)); [nra|exact Hin|].
  assert (E : a + (inject_Z i - inject_Z j) * 2 * r
              == x - (inject_Z j + 0.5) * 2 * r) by (unfold a; ring).
  rewrite E. exact Hout.
Qed.

Lemma top_interior_only w h x y i j :
  0 < pit_r w h -> i <> j ->
  strictly_inside w h (top_center w h i) x y ->
  hit_top w h x y j = false.
Proof.
  intros Hr Hne Hin. apply not_true_iff_false. unfold hit_top.
  rewrite inside_true. unfold strictly_inside in Hin.
  unfold top_center in *; cbn [fst snd] in *.
  assert (Hne' : (8 - i <> 8 - j)%Z) by lia.
  pose proof (inject_Z_apart _ _ Hne') as Hd.
  set (r := pit_r w h) in *.
  set (a := x - (inject_Z (8 - i) + 0.5) * 2 * r) in *.
  set (b := y - (h - r * 1.5)) in *.
  intros Hout.
  apply (disks_apart r a b ((inject_Z (8 - i) - inject_Z (8 - j)) * 2 * r));
    [nra|exact Hin|].
  assert (E : a + (inject_Z (8 - i) - inject_Z (8 - j)) * 2 * r
              == x - (inject_Z (8 - j) + 0.5) * 2 * r) by (unfold a; ring).
  rewrite E. exact Hout.
Qed.

Lemma rows_exclusive w h x y i j :
  0 < pit_r w h -> 5 * pit_r w h < h ->
  hit_bottom w h x y i = true -> hit_top w h x y j = false.
Proof.
  intros Hr Hh Hb. apply not_true_iff_false. unfold hit_bottom, hit_top in *.
  rewrite inside_true in *. unfold bottom_center, top_center in *;
    cbn [fst snd] in *.
  set (r := pit_r w h) in *. intros Ht.
  pose proof (sq_nonneg (x - (inject_Z i + 0.5) * 2 * r)) as Hx1.
  pose proof (sq_nonneg (x - (inject_Z (8 - j) + 0.5) * 2 * r)) as Hx2.
  assert (Hy1 : 0 ^ 2 + (y - r * 1.5) ^ 2 <= r ^ 2) by lra.
  assert (Hy2 : 0 ^ 2 + (y - (h - r * 1.5)) ^ 2 <= r ^ 2) by lra.
  apply (disks_disjoint r 0 (y - r * 1.5) (h - 3 * r) Hr); [lra|exact Hy1|].
  assert (E : y - r * 1.5 - (h - 3 * r) == y - (h - r * 1.5)) by ring.
  rewrite E. exact Hy2.
Qed.

(** X16: when the board area is less than four times as wide as it is
    high, no point satisfies the hit condition of a bottom-row pit and of
    a top-row pit at once. *)
Theorem rows_never_both_hit (w h x y : Q) (i j : Z) :
  0 < w -> w < 4 * h ->
  (0 <= i <= 8)%Z -> (9 <= j <= 17)%Z ->
  ~ (cell_hit w h x y i = true /\ cell_hit w h x y j = true).
Proof.
  intros Hw Hwh Hi Hj [H1 H2].
  assert (Hh : 0 < h) by lra.
  rewrite cell_hit_bottom in H1 by lia. rewrite cell_hit_top in H2 by lia.
  rewrite (rows_exclusive w h x y i (j - 9)) in H2;
    [discriminate|now apply pit_r_pos|now apply rows_apart|exact H1].
Qed.

Lemma rows_never_both_hit_witness :
  ~ (cell_hit 700 400 35 100 0%Z = true /\ cell_hit 700 400 35 100 17%Z = true).
Proof.
  apply (rows_never_both_hit 700 400 35 100 0%Z 17%Z);
    [reflexivity|reflexivity|lia|lia].
Defined.

(** X17: a click strictly inside the disk drawn for pit [i] selects pit
    [i]: always for the bottom row, and for the top row whenever the board
    area is less than four times as wide as it is high. *)
Theorem interior_click_selects (w h x y : Q) (i : Z) :
  0 < w -> 0 < h -> (0 <= i <= 17)%Z ->
  ((9 <= i)%Z -> w < 4 * h) ->
  strictly_inside w h (pit_center w h i) x y ->
  screen_to_pit w h x y = Some i.
Proof.
  intros Hw Hh Hi Hwide Hin.
  pose proof (pit_r_pos w h Hw Hh) as Hr.
  unfold screen_to_pit. unfold pit_center in Hin.
  destruct (Z.ltb_spec i 9) as [Hlt|Hge].
  - rewrite (first_hit_only _ _ i); [reflexivity| |].
    + apply In_range. lia.
    + intros j _. split.
      * intros Hj. destruct (Z.eq_dec j i) as [E|E]; [exact E|].
        rewrite (bottom_interior_only w h x y i j) in Hj by auto. discriminate.
      * intros ->. now apply strictly_inside_hit.
  - pose proof (rows_apart w h Hw (Hwide Hge)) as Hrows.
    assert (Htop : hit_top w h x y (i - 9)%Z = true) by now apply strictly_inside_hit.
    assert (Hnone : first_hit (hit_bottom w h x y) (range 0 9) = None).
    { apply first_hit_None. intros j _.
      destruct (hit_bottom w h x y j) eqn:Hb; [|reflexivity].
      rewrite (rows_exclusive w h x y j (i - 9)%Z Hr Hrows Hb) in Htop.
      discriminate. }
    rewrite Hnone. rewrite (first_hit_only _ _ (i - 9)%Z).
    + f_equal. lia.
    + apply In_range. lia.
    + intros j _. split.
      * intros Hj. destruct (Z.eq_dec j (i - 9)%Z) as [E|E]; [exact E|].
        rewrite (top_interior_only w h x y (i - 9)%Z j) in Hj by auto. discriminate.
      * intros ->. exact Htop.
Qed.

Lemma interior_click_selects_witness :
  screen_to_pit 700 400 40 350 = Some 17%Z.
Proof.
  apply (interior_click_selects 700 400 40 350 17%Z).
  - reflexivity.
  - reflexivity.
  - lia.
  - intros _. reflexivity.
  - reflexivity.
Defined.

(** X18: a click outside the band of the pits selects nothing: left of
    [x = 0], right of [x = 18 r], below [y = r / 2] or above
    [y = h - r / 2], where [r] is the pit radius. *)
Theorem outside_click_selects_nothing (w h x y : Q) :
  0 < w -> 0 < h ->
  x < 0 \/ 18 * pit_r w h < x \/ y < pit_r w h / 2 \/ h - pit_r w h / 2 < y ->
  screen_to_pit w h x y = None.
Proof.
  intros Hw Hh Hout.
  pose proof (pit_r_pos w h Hw Hh) as Hr.
  pose proof (pit_r_le_h w h) as Hrh.
  assert (Hhalf : pit_r w h / 2 * 2 == pit_r w h) by field.
  unfold screen_to_pit.
  assert (Hb : first_hit (hit_bottom w h x y) (range 0 9) = None).
  { apply first_hit_None. intros j Hj. apply In_range in Hj.
    destruct (inject_Z_bounds j Hj) as [J0 J8].
    unfold hit_bottom. apply inside_false.
    unfold bottom_center; cbn [fst snd].
    set (r := pit_r w h) in *. set (J := inject_Z j) in *.
    assert (0 <= J * r) by nra. assert (J * r <= 8 * r) by nra.
    apply far_outside; [exact Hr|].
    destruct Hout as [H1|[H1|[H1|H1]]].
    - left. lra.
    - right; left. lra.
    - right; right; left. lra.
    - right; right; right. lra. }
  assert (Ht : first_hit (hit_top w h x y) (range 0 9) = None).
  { apply first_hit_None. intros j Hj. apply In_range in Hj.
    assert (Hj' : (0 <= 8 - j < 9)%Z) by lia.
    destruct (inject_Z_bounds _ Hj') as [J0 J8].
    unfold hit_top. apply inside_false.
    unfold top_center; cbn [fst snd].
    set (r := pit_r w h) in *. set (J := inject_Z (8 - j)) in *.
    assert (0 <= J * r) by nra. assert (J * r <= 8 * r) by nra.
    apply far_outside; [exact Hr|].
    destruct Hout as [H1|[H1|[H1|H1]]].
    - left. lra.
    - right; left. lra.
    - right; right; left. lra.
    - right; right; right. lra. }
  now rewrite Hb, Ht.
Qed.

Lemma outside_click_selects_nothing_witness :
  screen_to_pit 700 400 680 60 = None.
Proof.
  apply (outside_click_selects_nothing 700 400 680 60).
  - reflexivity.
  - reflexivity.
  - right; left. reflexivity.
Defined.

Local Close Scope Q_scope.

(** ** The engine's choice, the notation and the event loop *)

Lemma nonempty_pits_first ps n : forall lo c rest,
  nonempty_pits ps (range lo (lo + Z.of_nat n)) = Ok (c :: rest) ->
  forall m, lo <= m < c -> exists x, getitem ps m = Ok x /\ x <= 0.
Proof.
  induction n as [|n IH]; intros lo c rest.
  - rewrite range_nil by lia. discriminate.
  - rewrite range_cons by lia. simpl.
    destruct (getitem ps lo) as [x|e] eqn:Hx; simpl; [|discriminate].
    replace (lo + Z.of_nat (S n)) with (lo + 1 + Z.of_nat n) by lia.
    destruct (nonempty_pits ps (range (lo + 1) (lo + 1 + Z.of_nat n)))
      as [r|e] eqn:Hr; simpl; [|discriminate].
    destruct (Z.ltb_spec 0 x) as [Hpos|Hnonpos].
    + intros [= <- <-] m Hm. lia.
    + intros [= ->] m Hm. destruct (Z.eq_dec m lo) as [->|Hne]; [eauto|].
      apply (IH _ _ _ Hr). lia.
Qed.

(** X19: [_engine_move] does nothing when the board has no legal move;
    otherwise it plays the lowest-indexed pit of the mover's row that
    holds seeds, records it as an engine move, and plays no further
    move. *)
Theorem engine_move_policy (ui : GameUI) :
  (18 <= length (pits (board_model ui)))%nat ->
  exists legal, generate_legal_moves (board_model ui) = Ok legal /\
    match legal with
    | [] => _engine_move ui = (Ok tt, ui)
    | c :: _ =>
        (forall m, fst (side_range (board_model ui)) <= m < c ->
           exists x, getitem (pits (board_model ui)) m = Ok x /\ x <= 0) /\
        exists b, apply_move (board_model ui) c = Ok b /\
          _engine_move ui = (Ok tt, record_move ui c true b)
    end.
Proof.
  intros Hlen. destruct (legal_moves_total _ Hlen) as [legal Hl].
  exists legal. split; [exact Hl|]. destruct legal as [|c rest].
  - now apply engine_move_none.
  - split.
    + rewrite legal_moves_range in Hl.
      assert (E : snd (side_range (board_model ui))
                  = fst (side_range (board_model ui)) + Z.of_nat 9).
      { unfold side_range. now destruct (turn (board_model ui) =? 0). }
      rewrite E in Hl. exact (nonempty_pits_first _ _ _ _ _ Hl).
    + destruct (engine_reply_applies _ c rest Hl) as [b Hb].
      exists b. split; [exact Hb|]. now apply (engine_move_some ui c rest).
Qed.

Lemma engine_move_policy_witness :
  exists legal, generate_legal_moves board_after_pit0 = Ok legal /\
    match legal with
    | [] => _engine_move (ui_with (GameUI_new (700, 400)%Q) board_after_pit0
                            MoveHistory_new)
            = (Ok tt, ui_with (GameUI_new (700, 400)%Q) board_after_pit0
                        MoveHistory_new)
    | c :: _ =>
        (forall m, 9 <= m < c ->
           exists x, getitem (pits board_after_pit0) m = Ok x /\ x <= 0) /\
        exists b, apply_move board_after_pit0 c = Ok b /\
          _engine_move (ui_with (GameUI_new (700, 400)%Q) board_after_pit0
                          MoveHistory_new)
          = (Ok tt, record_move (ui_with (GameUI_new (700, 400)%Q)
                                   board_after_pit0 MoveHistory_new) c true b)
    end.
Proof.
  apply (engine_move_policy
           (ui_with (GameUI_new (700, 400)%Q) board_after_pit0 MoveHistory_new)).
  simpl. lia.
Defined.

Lemma to_int_printable z :
  Z.to_int z <> Decimal.Pos Decimal.Nil /\ Z.to_int z <> Decimal.Neg Decimal.Nil.
Proof.
  destruct z as [|p|p]; simpl; split; try discriminate;
    intros [= H]; exact (DecimalPos.Unsigned.to_uint_nonnil p H).
Qed.

Lemma string_of_Z_inj a b :
  NilZero.string_of_int (Z.to_int a) = NilZero.string_of_int (Z.to_int b) -> a = b.
Proof.
  intros H. apply (f_equal NilZero.int_of_string) in H.
  destruct (to_int_printable a) as [Ha1 Ha2], (to_int_printable b) as [Hb1 Hb2].
  rewrite !NilZero.isi in H by assumption. injection H as H.
  apply (f_equal Z.of_int) in H. now rewrite !DecimalZ.of_to in H.
Qed.

(** X20: the notation written for a move tells the actor and the pit
    apart: two moves get the same notation only if both the pit index
    and the engine flag agree. *)
Theorem move_str_injective (p1 p2 : Z) (e1 e2 : bool) :
  move_str p1 e1 = move_str p2 e2 -> p1 = p2 /\ e1 = e2.
Proof.
  unfold move_str. destruct e1, e2; simpl; intros H; try discriminate.
  - injection H as H. apply string_of_Z_inj in H. split; [lia|reflexivity].
  - injection H as H. apply string_of_Z_inj in H. split; [lia|reflexivity].
Qed.

Lemma move_str_injective_witness : 4 = 4 /\ true = true.
Proof. apply (move_str_injective 4 4 true true). reflexivity. Defined.

(** X21: [run] handles nothing that arrives after the window is closed:
    the events behind the first [Closed] have no effect on the outcome or
    on the state. *)
Theorem run_stops_at_close (before after : list event) (ui : GameUI) :
  run (before ++ Closed :: after) ui = run (before ++ [Closed]) ui.
Proof.
  revert ui. induction before as [|ev tl IH]; intros ui; [reflexivity|].
  destruct ev as [x y|rows| |]; simpl.
  - unfold mbind, St_bind. destruct (on_board_click x y ui) as [[[]|e] ui'];
      [apply IH|reflexivity].
  - unfold mbind, St_bind. destruct (on_table_select rows ui) as [[[]|e] ui'];
      [apply IH|reflexivity].
  - apply IH.
  - reflexivity.
Qed.

Local Open Scope Q_scope.

(** X22: for a board area of positive size, the disk drawn for each of
    the 18 pits lies within the area: between 0 and [w] across and
    between 0 and [h] up. *)
Theorem pits_fit_in_area (w h : Q) (i : Z) :
  0 < w -> 0 < h -> (0 <= i <= 17)%Z ->
  0 <= fst (pit_center w h i) - pit_r w h /\
  fst (pit_center w h i) + pit_r w h <= w /\
  0 <= snd (pit_center w h i) - pit_r w h /\
  snd (pit_center w h i) + pit_r w h <= h.
Proof.
  intros Hw Hh Hi.
  pose proof (pit_r_pos w h Hw Hh) as Hr.
  pose proof (pit_r_le_h w h) as Hrh.
  pose proof (pit_r_le_w w h) as Hrw.
  unfold pit_center. destruct (Z.ltb_spec i 9) as [Hlt|Hge].
  - destruct (inject_Z_bounds i ltac:(lia)) as [J0 J8].
    unfold bottom_center; cbn [fst snd].
    set (r := pit_r w h) in *. set (J := inject_Z i) in *.
    assert (0 <= J * r) by nra. assert (J * r <= 8 * r) by nra.
    repeat split; lra.
  - assert (Hk : (0 <= 8 - (i - 9) < 9)%Z) by lia.
    destruct (inject_Z_bounds _ Hk) as [J0 J8].
    unfold top_center; cbn [fst snd].
    set (r := pit_r w h) in *. set (J := inject_Z (8 - (i - 9))) in *.
    assert (0 <= J * r) by nra. assert (J * r <= 8 * r) by nra.
    repeat split; lra.
Qed.

Lemma pits_fit_in_area_witness :
  0 <= fst (pit_center 700 400 17) - pit_r 700 400 /\
  fst (pit_center 700 400 17) + pit_r 700 400 <= 700 /\
  0 <= snd (pit_center 700 400 17) - pit_r 700 400 /\
  snd (pit_center 700 400 17) + pit_r 700 400 <= 400.
Proof.
  apply (pits_fit_in_area 700 400 17%Z); [reflexivity|reflexivity|lia].
Defined.

Local Close Scope Q_scope.
